(** * nlp_query_demo: a shallow embedding of the query-routing core

    The development follows [backend/nlp_query_demo.py]: the tokenizer, the
    keyword classifier, the pattern translator, schema discovery, the
    document indexer with its job table, ranked search and the cached
    query engine.

    Python [str] values are modelled by [string]: sequences of characters
    with code points 0..255.  On that range [str.lower] only moves the
    ASCII capitals into the ASCII range, so every test the program makes on
    a lowered text (keyword containment, the token character class, the
    decimal digits of a regular expression) is decided by the ASCII part
    modelled here. *)

From Stdlib Require Import ZArith NArith List String Ascii Bool Lia.
From Stdlib Require Import DecimalString Sorting.Sorted Permutation.
From Stdlib Require DecimalPos DecimalN.
From stdpp Require Import base option list gmap strings.

Local Open Scope string_scope.
Local Open Scope list_scope.

(** ** Text primitives *)

Module Text.

(** [str.lower] on one character. *)
Definition lower_char (c : ascii) : ascii :=
  let n := N_of_ascii c in
  if ((65 <=? n) && (n <=? 90))%N then ascii_of_N (n + 32) else c.

(** [s.lower()] *)
Fixpoint lower (s : string) : string :=
  match s with
  | EmptyString => EmptyString
  | String c t => String (lower_char c) (lower t)
  end.

(** [needle in hay] on strings: [needle] occurs at some offset of [hay]. *)
Fixpoint contains (needle hay : string) : bool :=
  String.prefix needle hay ||
  match hay with
  | EmptyString => false
  | String _ t => contains needle t
  end.

(** [s.endswith(suffix)] *)
Definition endswith (s suffix : string) : bool :=
  let n := String.length s in
  let k := String.length suffix in
  (k <=? n)%nat && String.eqb (String.substring (n - k) k s) suffix.

(** [s[:-k]] for a positive [k]: drop the last [k] characters. *)
Definition drop_last (k : nat) (s : string) : string :=
  String.substring 0 (String.length s - k) s.

(** [s[:n]] *)
Definition slice_to (n : nat) (s : string) : string :=
  String.substring 0 n s.

(** [s.replace(a, b)] for single characters [a] and [b]. *)
Fixpoint replace_char (a b : ascii) (s : string) : string :=
  match s with
  | EmptyString => EmptyString
  | String c t => String (if Ascii.eqb c a then b else c) (replace_char a b t)
  end.

Definition is_digit (c : ascii) : bool :=
  let n := N_of_ascii c in ((48 <=? n) && (n <=? 57))%N.

(** The longest prefix of decimal digits: what a greedy [\d+] consumes. *)
Fixpoint take_digits (s : string) : string :=
  match s with
  | EmptyString => EmptyString
  | String c t => if is_digit c then String c (take_digits t) else EmptyString
  end.

Fixpoint all_chars (p : ascii -> bool) (s : string) : bool :=
  match s with
  | EmptyString => true
  | String c t => p c && all_chars p t
  end.


(** What follows [p] when [s] starts with [p]. *)
Fixpoint strip_prefix (p s : string) : option string :=
  match p, s with
  | EmptyString, _ => Some s
  | String a p', String b s' =>
      if Ascii.eqb a b then strip_prefix p' s' else None
  | String _ _, EmptyString => None
  end.

(** [int(s)] for a string of decimal digits. *)
Definition int_of_digits (s : string) : N :=
  fold_left (fun acc c => (10 * acc + (N_of_ascii c - 48))%N)
            (list_ascii_of_string s) 0%N.

(** [str(n)] for a non-negative integer. *)
Definition str_of_N (n : N) : string :=
  NilZero.string_of_uint (N.to_uint n).

Definition newline : ascii := ascii_of_N 10.
Definition space : ascii := ascii_of_N 32.

End Text.

(** ** Tokenizer *)

(** The character class [[a-zA-Z0-9\+\#\.\-]]. *)
Definition token_char (c : ascii) : bool :=
  let n := N_of_ascii c in
  (((97 <=? n) && (n <=? 122)) || ((65 <=? n) && (n <=? 90)) ||
   ((48 <=? n) && (n <=? 57)) ||
   (n =? 43) || (n =? 35) || (n =? 46) || (n =? 45))%N.

(** [re.findall(r"[...]+", s)]: the maximal runs of class characters, left to
    right.  [run] is the run being read, [None] between two runs. *)
Fixpoint findall_runs (run : option string) (s : string) : list string :=
  match s with
  | EmptyString =>
      match run with Some r => [r] | None => [] end
  | String c t =>
      if token_char c then
        findall_runs (Some (match run with
                            | Some r => String.append r (String c EmptyString)
                            | None => String c EmptyString
                            end)) t
      else
        match run with
        | Some r => r :: findall_runs None t
        | None => findall_runs None t
        end
  end.

Definition tokenize (text : string) : list string :=
  findall_runs None (Text.lower text).

(** [set(l)] for a list of strings, kept as a duplicate-free list (the
    iteration order of a Python set is unspecified; one order is fixed
    here, and no statement below depends on which). *)
Definition set_of (l : list string) : list string := remove_dups l.

(** ** Query classifier *)

(** The three routes; the program names them by the strings of
    [qtype_str]. *)
Inductive qtype : Type := QDoc | QSql | QHybrid.

Definition qtype_str (t : qtype) : string :=
  match t with QDoc => "doc" | QSql => "sql" | QHybrid => "hybrid" end.

Global Instance qtype_eq_dec : EqDecision qtype.
Proof. solve_decision. Defined.

Definition simple_query_classifier (q : string) : qtype :=
  let ql := Text.lower q in
  if Text.contains "document" ql || Text.contains "resume" ql
     || Text.contains "skill" ql then QDoc
  else if Text.contains "employee" ql || Text.contains "salary" ql
          || Text.contains "hired" ql then QSql
  else QHybrid.

(** ** Query translator *)

(** A value bound to a [?] placeholder. *)
Inductive sql_param : Type :=
| PInt (n : N)
| PText (s : string).

(** Group 1 of [re.search(r"top (\d+)", s)]: the digits after the leftmost
    occurrence of [top ] that is followed by a digit; [None] when the
    pattern occurs nowhere. *)
Fixpoint search_top (s : string) : option string :=
  match s with
  | EmptyString => None
  | String _ t =>
      match Text.strip_prefix "top " s with
      | Some rest =>
          match Text.take_digits rest with
          | EmptyString => search_top t
          | digits => Some digits
          end
      | None => search_top t
      end
  end.

Definition SQL_COUNT_ALL : string := "SELECT COUNT(*) as total FROM employees".
Definition SQL_AVG_BY_DEPT : string :=
  String.append
    "SELECT d.dept_name, AVG(e.annual_salary) as avg_salary "
    "FROM employees e JOIN departments d ON e.dept_id=d.dept_id GROUP BY d.dept_name".
Definition SQL_TOP_N : string :=
  "SELECT * FROM employees ORDER BY annual_salary DESC LIMIT ?".
Definition SQL_HIRED_YEAR : string :=
  "SELECT * FROM employees WHERE substr(join_date,1,4)=?".
Definition SQL_DEFAULT : string := "SELECT * FROM employees LIMIT 10".

(** [QueryEngine._nl_to_sql]; [tm_year] is [time.localtime().tm_year]. *)
Definition _nl_to_sql (tm_year : N) (q : string) : string * list sql_param :=
  let ql := Text.lower q in
  if Text.contains "how many employees" ql then (SQL_COUNT_ALL, [])
  else if Text.contains "average salary by department" ql then (SQL_AVG_BY_DEPT, [])
  else if Text.contains "top" ql && Text.contains "highest paid" ql then
    let n := match search_top ql with
             | Some digits => Text.int_of_digits digits
             | None => 5%N
             end in
    (SQL_TOP_N, [PInt n])
  else if Text.contains "hired this year" ql then
    (SQL_HIRED_YEAR, [PText (Text.str_of_N tm_year)])
  else (SQL_DEFAULT, []).

(** ** Values of the relational store *)

(** A value of a sqlite3 row.  A REAL is kept as the pair of the mantissa
    and the binary exponent of its double; the program only passes such
    values on. *)
Inductive sqlite_value : Type :=
| SqlNull
| SqlInteger (z : Z)
| SqlReal (mantissa exponent : Z)
| SqlText (s : string)
| SqlBlob (bytes : string).

(** [time.time()] readings are kept as integers (a fixed sub-second unit). *)
Definition timestamp : Type := Z.

(** [dict(zip(keys, values))]: a later pair with the same key overwrites an
    earlier one. *)
Definition dict_zip {V : Type} (keys : list string) (values : list V)
  : gmap string V :=
  list_to_map (reverse (zip keys values)).

(** ** Schema discovery *)

(** One row of [PRAGMA table_info]. *)
Record table_info_row : Type := {
  ti_cid : N;
  ti_name : string;
  ti_type : string;
  ti_notnull : bool;
  ti_dflt_value : option string;
  ti_pk : N                       (* 0: not part of the primary key *)
}.

(** A table as the store presents it: its [sqlite_master] type and name, its
    [table_info] rows, and the outcome of [SELECT * FROM t]: the column
    names and all rows, or [None] when the statement raises. *)
Record db_object : Type := {
  obj_type : string;
  obj_name : string;
  obj_table_info : list table_info_row;
  obj_select_all : option (list string * list (list sqlite_value))
}.

Record column : Type := { col_name : string; col_type : string }.

Record relationship : Type := {
  rel_column : string;
  likely_ref_table : string
}.

Record table_schema : Type := {
  columns : list column;
  sample : list (gmap string sqlite_value);
  relationships : list relationship
}.

Record schema_snapshot : Type := {
  tables : list (string * table_schema);
  discovered_at : timestamp
}.

Global Instance relationship_eq_dec : EqDecision relationship.
Proof. solve_decision. Defined.

(** [name LIKE 'sqlite_%']: LIKE ignores ASCII case, [_] stands for any one
    character and [%] for any sequence. *)
Definition like_sqlite_ (name : string) : bool :=
  (7 <=? String.length name)%nat &&
  String.eqb (Text.lower (String.substring 0 6 name)) "sqlite".

(** The loop over [cols] that collects the inferred relationships. *)
Definition infer_relationships (cols : list column) : list relationship :=
  omap (fun c =>
          if Text.endswith (col_name c) "_id"
             && negb (String.eqb (col_name c) "emp_id")
          then Some {| rel_column := col_name c;
                       likely_ref_table := Text.drop_last 3 (col_name c) |}
          else None) cols.

(** The body of the loop over the tables. *)
Definition analyze_table (t : db_object) : table_schema :=
  let cols := map (fun r => {| col_name := ti_name r; col_type := ti_type r |})
                  (obj_table_info t) in
  let sample :=
    match obj_select_all t with
    | Some (description, rows) => map (dict_zip description) (take 3 rows)
    | None => []
    end in
  {| columns := cols; sample := sample;
     relationships := infer_relationships cols |}.

(** [SchemaDiscovery.analyze_database]; [now] is the reading of
    [time.time()]. *)
Definition analyze_database (db : list db_object) (now : timestamp)
  : schema_snapshot :=
  let user_tables :=
    filter (fun o => String.eqb (obj_type o) "table" = true
                     /\ like_sqlite_ (obj_name o) = false) db in
  {| tables := map (fun t => (obj_name t, analyze_table t)) user_tables;
     discovered_at := now |}.

(** The schema that [ensure_demo_db] creates. *)
Definition ti (cid : N) (name type : string) (pk : N) : table_info_row :=
  {| ti_cid := cid; ti_name := name; ti_type := type; ti_notnull := false;
     ti_dflt_value := None; ti_pk := pk |}.

Definition demo_employees : db_object :=
  {| obj_type := "table"; obj_name := "employees";
     obj_table_info :=
       [ti 0 "emp_id" "INTEGER" 1; ti 1 "full_name" "TEXT" 0;
        ti 2 "dept_id" "INTEGER" 0; ti 3 "position" "TEXT" 0;
        ti 4 "annual_salary" "REAL" 0; ti 5 "join_date" "TEXT" 0;
        ti 6 "office_location" "TEXT" 0];
     obj_select_all :=
       Some (["emp_id"; "full_name"; "dept_id"; "position"; "annual_salary";
              "join_date"; "office_location"],
             [[SqlInteger 1; SqlText "Alice Johnson"; SqlInteger 1;
               SqlText "Senior Engineer"; SqlReal 120000 0;
               SqlText "2023-02-15"; SqlText "NY"];
              [SqlInteger 2; SqlText "Bob Smith"; SqlInteger 1;
               SqlText "Engineer"; SqlReal 90000 0;
               SqlText "2022-07-10"; SqlText "NY"];
              [SqlInteger 3; SqlText "Charlie Lee"; SqlInteger 2;
               SqlText "Manager"; SqlReal 130000 0;
               SqlText "2020-11-01"; SqlText "SF"];
              [SqlInteger 4; SqlText "Diana Prince"; SqlInteger 3;
               SqlText "Data Scientist"; SqlReal 115000 0;
               SqlText "2024-01-20"; SqlText "Remote"];
              [SqlInteger 5; SqlText "Evan Garcia"; SqlInteger 1;
               SqlText "Engineer"; SqlReal 95000 0;
               SqlText "2021-06-30"; SqlText "NY"]]) |}.

Definition demo_departments : db_object :=
  {| obj_type := "table"; obj_name := "departments";
     obj_table_info :=
       [ti 0 "dept_id" "INTEGER" 1; ti 1 "dept_name" "TEXT" 0;
        ti 2 "manager_id" "INTEGER" 0];
     obj_select_all :=
       Some (["dept_id"; "dept_name"; "manager_id"],
             [[SqlInteger 1; SqlText "Engineering"; SqlInteger 3];
              [SqlInteger 2; SqlText "Product"; SqlInteger 3];
              [SqlInteger 3; SqlText "Data"; SqlInteger 4]]) |}.

Definition demo_documents : db_object :=
  {| obj_type := "table"; obj_name := "documents";
     obj_table_info :=
       [ti 0 "doc_id" "TEXT" 1; ti 1 "doc_name" "TEXT" 0;
        ti 2 "content" "TEXT" 0; ti 3 "uploaded_at" "REAL" 0];
     obj_select_all := Some (["doc_id"; "doc_name"; "content"; "uploaded_at"], []) |}.

Definition demo_doc_index : db_object :=
  {| obj_type := "table"; obj_name := "doc_index";
     obj_table_info := [ti 0 "term" "TEXT" 0; ti 1 "doc_id" "TEXT" 0];
     obj_select_all := Some (["term"; "doc_id"], []) |}.

Definition demo_db : list db_object :=
  [demo_employees; demo_departments; demo_documents; demo_doc_index].

(** ** Exceptions *)

(** The exceptions the modelled code can raise, and the result of a call
    that either raises or returns. *)
Inductive exn : Type :=
| KeyError
| ValueError (msg : string)
| IntegrityError (msg : string).

Definition result (A : Type) : Type := exn + A.

Definition ret {A : Type} (a : A) : result A := inr a.
Definition raise {A : Type} (e : exn) : result A := inl e.
Definition bind {A B : Type} (m : result A) (k : A -> result B) : result B :=
  match m with
  | inl e => inl e
  | inr a => k a
  end.

Notation "'call' x <~ m 'in' k" := (bind m (fun x => k))
  (at level 10, x name, m at level 100, k at level 200,
   format "'[v' 'call'  x  <~  m  'in'  '/' k ']'").

(** ** Document store and job table *)

Record document : Type := {
  doc_id : string;
  doc_name : string;
  content : string;
  uploaded_at : timestamp
}.

(** The two tables ingestion writes: [documents] and [doc_index], each as
    its rows in insertion order.  A [doc_index] row is [(term, doc_id)]. *)
Record doc_store : Type := {
  documents : list document;
  doc_index : list (string * string)
}.

Definition empty_store : doc_store := {| documents := []; doc_index := [] |}.

Record job : Type := { total : nat; processed : nat; done : bool }.

Global Instance job_eq_dec : EqDecision job.
Proof. solve_decision. Defined.

(** The module-level job table with the store it is updated along with. *)
Record ingest_state : Type := {
  INGEST_STATUS : gmap string job;
  store : doc_store
}.

(** An uploaded file: [filename] and the bytes [read()] returns. *)
Record UploadFile : Type := { filename : string; contents : string }.

(** What [csv.DictReader] yields on given lines: the field names ([None]
    when there is no header line) and the row dictionaries ([None] when
    reading the rows raises). *)
Record csv_reader : Type := {
  fieldnames : option (list string);
  csv_rows : option (list (gmap string string))
}.

(** What one batch takes from its environment: the UTF-8 decoder ([None]
    when the bytes are not valid UTF-8), the CSV reader, and the values of
    the i-th call of [uuid.uuid4()] and of [time.time()]. *)
Record ingest_env : Type := {
  decode_utf8 : string -> option string;
  DictReader : list string -> csv_reader;
  uuid4 : nat -> string;
  time_time : nat -> timestamp
}.

Definition is_line_boundary (c : ascii) : bool :=
  let n := N_of_ascii c in
  (((10 <=? n) && (n <=? 13)) || ((28 <=? n) && (n <=? 30)) || (n =? 133))%N.

(** [str.splitlines]: [after_cr] is set right after a carriage return, whose
    following line feed belongs to the same boundary. *)
Fixpoint splitlines_from (after_cr : bool) (cur : string) (s : string)
  : list string :=
  match s with
  | EmptyString => match cur with EmptyString => [] | _ => [cur] end
  | String c t =>
      if after_cr && Ascii.eqb c Text.newline then splitlines_from false cur t
      else if is_line_boundary c then
        cur :: splitlines_from (Ascii.eqb c (ascii_of_N 13)) EmptyString t
      else splitlines_from false (String.append cur (String c EmptyString)) t
  end.

Definition splitlines (s : string) : list string :=
  splitlines_from false EmptyString s.

Definition NL : string := String Text.newline EmptyString.

(** The [try] block of the CSV branch; every exception inside falls back to
    the whole text. *)
Definition csv_content (env : ingest_env) (text : string) : string :=
  let text_lines := splitlines text in
  let reader := DictReader env text_lines in
  match fieldnames reader with
  | None => text
  | Some names =>
      if bool_decide ("content" ∈ names) then
        match csv_rows reader with
        | None => text
        | Some rows =>
            String.concat NL
              (omap (fun r : gmap string string =>
                       match r !! "content" with
                       | Some EmptyString => None
                       | Some v => Some v
                       | None => None
                       end) rows)
        end
      else String.concat NL text_lines
  end.

(** The text stored for a file: decoded as UTF-8, else as Latin-1 (where a
    byte is its own code point), then reduced to the content column when
    the file name ends in [.csv]. *)
Definition file_content (env : ingest_env) (file : UploadFile) : string :=
  let text := match decode_utf8 env (contents file) with
              | Some t => t
              | None => contents file
              end in
  if Text.endswith (Text.lower (filename file)) ".csv"
  then csv_content env text
  else text.

(** The index rows written for one document. *)
Definition index_rows (d : document) : list (string * string) :=
  (fun term => (term, doc_id d)) <$> set_of (tokenize (content d)).

(** The first statements of [process_documents]. *)
Definition start_job (files : list UploadFile) (job_id : string)
    (st : ingest_state) : ingest_state :=
  {| INGEST_STATUS :=
       <[job_id := {| total := length files; processed := 0; done := false |}]>
         (INGEST_STATUS st);
     store := store st |}.

(** The document stored for the i-th file of a batch. *)
Definition new_document (env : ingest_env) (i : nat) (file : UploadFile)
  : document :=
  {| doc_id := uuid4 env i; doc_name := filename file;
     content := file_content env file;
     uploaded_at := time_time env i |}.

(** The documents stored for the files of a batch, from the i-th on. *)
Fixpoint new_documents (env : ingest_env) (i : nat) (files : list UploadFile)
  : list document :=
  match files with
  | [] => []
  | file :: rest => new_document env i file :: new_documents env (S i) rest
  end.

(** One iteration of the loop, for the i-th file.  [documents.doc_id] is the
    primary key, so inserting a present id raises. *)
Definition ingest_file (env : ingest_env) (i : nat) (job_id : string)
    (file : UploadFile) (st : ingest_state) : result ingest_state :=
  let d := new_document env i file in
  if bool_decide (doc_id d ∈ doc_id <$> documents (store st)) then
    raise (IntegrityError "UNIQUE constraint failed: documents.doc_id")
  else
    let db := {| documents := documents (store st) ++ [d];
                 doc_index := doc_index (store st) ++ index_rows d |} in
    match INGEST_STATUS st !! job_id with
    | None => raise KeyError
    | Some j =>
        ret {| INGEST_STATUS :=
                 <[job_id := {| total := total j; processed := processed j + 1;
                                done := done j |}]> (INGEST_STATUS st);
               store := db |}
    end.

(** The statement after the loop. *)
Definition finish_job (job_id : string) (st : ingest_state)
  : result ingest_state :=
  match INGEST_STATUS st !! job_id with
  | None => raise KeyError
  | Some j =>
      ret {| INGEST_STATUS :=
               <[job_id := {| total := total j; processed := processed j;
                              done := true |}]> (INGEST_STATUS st);
             store := store st |}
  end.

Fixpoint ingest_loop (env : ingest_env) (i : nat) (job_id : string)
    (files : list UploadFile) (st : ingest_state) : result ingest_state :=
  match files with
  | [] => ret st
  | file :: rest =>
      call st' <~ ingest_file env i job_id file st in
      ingest_loop env (S i) job_id rest st'
  end.

(** [DocumentProcessor.process_documents] *)
Definition process_documents (env : ingest_env) (files : list UploadFile)
    (job_id : string) (st : ingest_state) : result ingest_state :=
  call st' <~ ingest_loop env 0 job_id files (start_job files job_id st) in
  finish_job job_id st'.

(** The states the run goes through, one after each update of the job
    table, up to the point where it raises or returns. *)
Fixpoint ingest_loop_states (env : ingest_env) (i : nat) (job_id : string)
    (files : list UploadFile) (st : ingest_state) : list ingest_state :=
  match files with
  | [] => match finish_job job_id st with
          | inr st' => [st']
          | inl _ => []
          end
  | file :: rest =>
      match ingest_file env i job_id file st with
      | inr st' => st' :: ingest_loop_states env (S i) job_id rest st'
      | inl _ => []
      end
  end.

Definition process_documents_states (env : ingest_env)
    (files : list UploadFile) (job_id : string) (st : ingest_state)
  : list ingest_state :=
  let st0 := start_job files job_id st in
  st0 :: ingest_loop_states env 0 job_id files st0.

(** What the status endpoint answers. *)
Inductive status_reply : Type :=
| JobStatus (j : job)
| StatusError (msg : string).

(** [ingest_status]: [INGEST_STATUS.get(job_id, {"error": "not found"})] *)
Definition ingest_status (table : gmap string job) (job_id : string)
  : status_reply :=
  match table !! job_id with
  | Some j => JobStatus j
  | None => StatusError "not found"
  end.

(** ** Ranked search *)

Record hit : Type := {
  hit_doc_id : string;
  hit_doc_name : string;
  snippet : string;
  score : nat
}.

(** [WHERE term IN (terms)] *)
Definition matching_rows (terms : list string) (index : list (string * string))
  : list (string * string) :=
  filter (fun r => r.1 ∈ terms) index.

(** [SELECT doc_id, COUNT( * ) ... GROUP BY doc_id] *)
Definition group_count (rows : list (string * string)) : list (string * nat) :=
  (fun id => (id, length (filter (fun r => r.2 = id) rows)))
    <$> remove_dups (rows.*2).

(** [ORDER BY COUNT( * ) DESC], as a stable insertion sort (the order among
    equal counts is left to the store). *)
Fixpoint insert_desc (g : string * nat) (l : list (string * nat))
  : list (string * nat) :=
  match l with
  | [] => [g]
  | h :: t => if (g.2 <? h.2)%nat then h :: insert_desc g t else g :: h :: t
  end.

Definition order_by_count_desc (l : list (string * nat)) : list (string * nat) :=
  foldr insert_desc [] l.

(** [r[1][:150].replace(newline, space)] *)
Definition make_snippet (text : string) : string :=
  Text.replace_char Text.newline Text.space (Text.slice_to 150 text).

(** [SELECT doc_name, content FROM documents WHERE doc_id=?] with
    [fetchone]. *)
Definition fetch_document (db : doc_store) (id : string) : option document :=
  List.find (fun d => String.eqb (doc_id d) id) (documents db).

(** The body of the loop over the ranked rows: the hit for one row, none
    when the document is not found. *)
Definition result_row (db : doc_store) (row : string * nat) : option hit :=
  match fetch_document db row.1 with
  | Some d => Some {| hit_doc_id := row.1; hit_doc_name := doc_name d;
                      snippet := make_snippet (content d);
                      score := row.2 |}
  | None => None
  end.

(** [DocumentProcessor.search_documents].  [top_k] is the number of rows
    asked for, a count (the program asks for 5); negative integers, which
    the store reads as no limit at all, are not covered. *)
Definition search_documents (db : doc_store) (query : string) (top_k : nat)
  : list hit :=
  let terms := set_of (tokenize query) in
  match terms with
  | [] => []
  | _ =>
      let rows :=
        take top_k
             (order_by_count_desc
                (group_count (matching_rows terms (doc_index db)))) in
      omap (result_row db) rows
  end.

(** The number of distinct terms of a query that occur in a document. *)
Definition overlap (terms : list string) (d : document) : nat :=
  length (filter (fun term => term ∈ tokenize (content d)) terms).

(** The store as ingestion leaves it: document ids are unique, and the
    index holds, in some order, the rows of every document. *)
Definition store_ok (db : doc_store) : Prop :=
  NoDup (doc_id <$> documents db) /\
  doc_index db ≡ₚ documents db ≫= index_rows.

(** ** The result cache *)

(** The class [LRUCache] comes from the cachetools package, whose source is
    not part of the repository.  The operations below are the ones the
    program calls: [key in cache], [cache[key]] and [cache[key] = value],
    every entry counting for one unit of size. *)
Module LRUCache.
Section Operations.
Context {K V : Type} `{EqDecision K}.

(** Modelled from the spec: the bounded store of section 4.8, LRUCache of
    cachetools.  The state of a cache is the list of its entries, from the
    least to the most recently used; the capacity is fixed when the cache
    is made and is an argument of [setitem]. *)
Definition t : Type := list (K * V).

Definition empty : list (K * V) := [].

Definition keys (c : list (K * V)) : list K := c.*1.

Definition currsize (c : list (K * V)) : nat := length c.

(** Modelled from the spec: [key in cache], which has no effect on the
    order. *)
Definition contains (k : K) (c : list (K * V)) : bool :=
  bool_decide (k ∈ keys c).

Fixpoint get (k : K) (c : list (K * V)) : option V :=
  match c with
  | [] => None
  | (k', v) :: rest => if decide (k' = k) then Some v else get k rest
  end.

Definition remove (k : K) (c : list (K * V)) : list (K * V) :=
  filter (fun e => e.1 <> k) c.

(** Modelled from the spec: [cache[key]], the read of section 4.8 that
    refreshes recency.  It gives the value and moves the key to the most
    recent end; a missing key raises. *)
Definition getitem (k : K) (c : list (K * V)) : result (V * list (K * V)) :=
  match get k c with
  | Some v => ret (v, remove k c ++ [(k, v)])
  | None => raise KeyError
  end.

(** Modelled from the spec: the eviction on overflow of section 4.8,
    [popitem] repeated while the cache is too full to take one more entry;
    the least recently used entry goes first. *)
Fixpoint evict (maxsize : nat) (c : list (K * V)) : list (K * V) :=
  match c with
  | [] => []
  | _ :: rest =>
      if (maxsize <? currsize c + 1)%nat then evict maxsize rest else c
  end.

(** Modelled from the spec: [cache[key] = value], the put of section 4.8.
    A value larger than the whole capacity is refused; a present key keeps
    its place in the count and becomes the most recent; a new key is added
    as the most recent after room has been made. *)
Definition setitem (maxsize : nat) (k : K) (v : V) (c : list (K * V))
  : result (list (K * V)) :=
  if (maxsize <? 1)%nat then raise (ValueError "value too large")
  else if contains k c then ret (remove k c ++ [(k, v)])
  else ret (evict maxsize c ++ [(k, v)]).

(** The object stored under [k] is changed in place: neither the order nor
    the other entries move. *)
Definition mutate (k : K) (f : V -> V) (c : list (K * V)) : list (K * V) :=
  map (fun e => if decide (e.1 = k) then (e.1, f e.2) else e) c.

(** Writing a list of entries one after the other. *)
Fixpoint put_all (maxsize : nat) (kvs : list (K * V)) (c : list (K * V))
  : result (list (K * V)) :=
  match kvs with
  | [] => ret c
  | (k, v) :: rest =>
      call c' <~ setitem maxsize k v c in
      put_all maxsize rest c'
  end.

End Operations.
Global Arguments t : clear implicits.
End LRUCache.

(** ** Query engine *)

(** The payload under the [results] key: rows of the relational store, the
    ranked hits of a search, or [{error: message}]. *)
Inductive payload : Type :=
| Rows (rows : list (gmap string sqlite_value))
| Hits (hits : list hit)
| ErrorPayload (msg : string).

Record query_result : Type := {
  qr_query : string;
  qr_type : qtype;
  qr_cached : bool;
  qr_results : payload
}.

Definition set_cached (b : bool) (r : query_result) : query_result :=
  {| qr_query := qr_query r; qr_type := qr_type r; qr_cached := b;
     qr_results := qr_results r |}.

(** What a query meets outside the engine: the calendar year, the outcome
    of executing a statement on the relational store (the message of the
    exception it raises, or the column names and the rows), and the
    document tables as a search reads them (or the message of the exception
    the store raises). *)
Record world : Type := {
  tm_year : N;
  execute : string -> list sql_param ->
            string + (list string * list (list sqlite_value));
  read_store : string + doc_store
}.

Definition QUERY_CACHE_maxsize : nat := 200.

Definition cache_key : Type := string * qtype.

(** The [try] block of [process_query]: every exception ends in the payload. *)
Definition compute_results (w : world) (q : string) (qt : qtype) : payload :=
  match qt with
  | QSql =>
      let '(sql, params) := _nl_to_sql (tm_year w) q in
      if String.eqb sql "" then ErrorPayload "No SQL generated"
      else
        match execute w sql params with
        | inl msg => ErrorPayload msg
        | inr (cols, rows) => Rows (map (dict_zip cols) rows)
        end
  | _ =>
      match read_store w with
      | inl msg => ErrorPayload msg
      | inr db => Hits (search_documents db q 5)
      end
  end.

(** [QueryEngine.process_query] on the module-level [QUERY_CACHE].  The
    dictionary a miss returns is the object it stores, and a hit sets
    [cached] on the stored object before returning it: the entry of the
    cache changes with it. *)
Definition process_query (w : world) (q : string)
    (QUERY_CACHE : LRUCache.t cache_key query_result)
  : result (query_result * LRUCache.t cache_key query_result) :=
  let qt := simple_query_classifier q in
  if LRUCache.contains (q, qt) QUERY_CACHE then
    call hit <~ LRUCache.getitem (q, qt) QUERY_CACHE in
    let res := set_cached true hit.1 in
    ret (res, LRUCache.mutate (q, qt) (set_cached true) hit.2)
  else
    let res := {| qr_query := q; qr_type := qt; qr_cached := false;
                  qr_results := compute_results w q qt |} in
    call cache <~ LRUCache.setitem QUERY_CACHE_maxsize (q, qt) res QUERY_CACHE in
    ret (res, cache).

(** ** Sample inputs *)

(** An environment for examples: ASCII bytes decode to themselves, the CSV
    reader finds no header, the i-th identifier is the numeral of [i]. *)
Definition sample_env : ingest_env :=
  {| decode_utf8 := fun b => Some b;
     DictReader := fun _ => {| fieldnames := None; csv_rows := None |};
     uuid4 := fun i => Text.str_of_N (N.of_nat i);
     time_time := fun i => Z.of_nat i |}.

Definition sample_files : list UploadFile :=
  [ {| filename := "a.txt"; contents := "Python Engineer NY" |};
    {| filename := "b.txt"; contents := "python java engineer ny" |};
    {| filename := "c.txt"; contents := "cobol" |} ].

Definition initial_state : ingest_state :=
  {| INGEST_STATUS := ∅; store := empty_store |}.

Definition failing_world : world :=
  {| tm_year := 2026; execute := fun _ _ => inl "no such table: employees";
     read_store := inr empty_store |}.

(** ** Vocabulary of the statements *)

(** The keywords of the classifier, in the order it looks for them. *)
Definition text_triggers : list string := ["document"; "resume"; "skill"].
Definition structured_triggers : list string := ["employee"; "salary"; "hired"].

Definition mentions (triggers : list string) (q : string) : bool :=
  existsb (fun kw => Text.contains kw (Text.lower q)) triggers.

(** The four patterns, as tests on the lowered query. *)
Definition asks_count (q : string) : bool :=
  Text.contains "how many employees" (Text.lower q).

(** The claim of the spec on one table: a column has a relationship exactly
    when its name ends in [_id] and it is not part of the primary key of
    its table. *)
Definition relates_all_but_own_key (t : db_object) : Prop :=
  forall r : table_info_row,
    r ∈ obj_table_info t ->
    (exists rel, rel ∈ relationships (analyze_table t) /\
                 rel_column rel = ti_name r) <->
    (Text.endswith (ti_name r) "_id" = true /\ ti_pk r = 0%N).

(** The result a query computes when the cache does not hold it. *)
Definition fresh_result (w : world) (q : string) : query_result :=
  {| qr_query := q; qr_type := simple_query_classifier q; qr_cached := false;
     qr_results := compute_results w q (simple_query_classifier q) |}.

(** A sequence of calls of [process_query], each with the world it meets. *)
Fixpoint run_queries (calls : list (world * string))
    (cache : list (cache_key * query_result))
  : result (list (cache_key * query_result)) :=
  match calls with
  | [] => ret cache
  | (w, q) :: rest =>
      call r <~ process_query w q cache in
      run_queries rest r.2
  end.


(** A character a token can hold: of the class, and left alone by
    [lower]. *)
Definition lowered_token_char (c : ascii) : bool :=
  token_char c && Ascii.eqb (Text.lower_char c) c.

Definition is_token (t : string) : Prop :=
  t <> EmptyString /\ Text.all_chars lowered_token_char t = true.

(** The identifiers of a batch are new: distinct from one another and from
    the stored ones. *)
Definition fresh_ids (env : ingest_env) (n : nat) (db : doc_store) : Prop :=
  NoDup ((uuid4 env <$> seq 0 n) ++ (doc_id <$> documents db)).

(** The store after the sample batch. *)
Definition sample_store : doc_store :=
  match process_documents sample_env sample_files "job-1" initial_state with
  | inr st => store st
  | inl _ => empty_store
  end.

(** ** Further vocabulary *)

(** The number of occurrences of a character, used to count the [?]
    placeholders of a statement. *)
Fixpoint count_char (a : ascii) (s : string) : nat :=
  match s with
  | EmptyString => 0
  | String c t => (if Ascii.eqb c a then 1 else 0) + count_char a t
  end.

Definition question_mark : ascii := ascii_of_N 63.


(** One state of a run compared with the state the run started from: what
    was stored is still there, in place; the entries of other jobs are
    untouched; the invariant of the store is kept. *)
Definition extends_state (job_id : string) (st s : ingest_state) : Prop :=
  documents (store st) `prefix_of` documents (store s) /\
  doc_index (store st) `prefix_of` doc_index (store s) /\
  (forall other, other <> job_id ->
                 INGEST_STATUS s !! other = INGEST_STATUS st !! other) /\
  (store_ok (store st) -> store_ok (store s)).

(** The identifier drawn for the i-th file is already taken, by a stored
    document or by an earlier file of the batch. *)
Definition id_taken (env : ingest_env) (i : nat) (db : doc_store) : Prop :=
  uuid4 env i ∈ (uuid4 env <$> seq 0 i) ++ (doc_id <$> documents db).

(** An environment that draws the same identifier for its second and its
    third file. *)
Definition repeating_env : ingest_env :=
  {| decode_utf8 := fun b => Some b;
     DictReader := fun _ => {| fieldnames := None; csv_rows := None |};
     uuid4 := fun i => Text.str_of_N (N.of_nat (Nat.min i 1));
     time_time := fun i => Z.of_nat i |}.

(** ** The query endpoint *)

(** A value of the JSON body of a request, as the framework hands it over.
    A float is kept as the pair of its mantissa and binary exponent. *)
#[warnings="-register-all"]
Inductive json : Type :=
| JNull
| JBool (b : bool)
| JInt (z : Z)
| JFloat (mantissa exponent : Z)
| JString (s : string)
| JList (items : list json)
| JObject (fields : list (string * json)).

(** The truth value Python gives a JSON value in [not q]. *)
Definition truthy (v : json) : bool :=
  match v with
  | JNull => false
  | JBool b => b
  | JInt z => negb (z =? 0)%Z
  | JFloat mantissa _ => negb (mantissa =? 0)%Z
  | JString s => negb (String.eqb s EmptyString)
  | JList items => match items with [] => false | _ => true end
  | JObject fields => match fields with [] => false | _ => true end
  end.

(** What the endpoint answers: the error dictionary or a query result. *)
Inductive query_reply : Type :=
| ReplyError (msg : string)
| ReplyResult (r : query_result).

(** What the endpoint raises: the attribute error of [q.lower()] on a value
    that is no string, or an exception of the engine. *)
Inductive endpoint_exn : Type :=
| AttributeError (msg : string)
| EngineError (e : exn).

(** The handler [query] of [/api/query]: [payload.get("query", "")], the
    test [not q], then [qe.process_query(q)], whose first statement lowers
    [q]. *)
Definition query (w : world) (payload : gmap string json)
    (QUERY_CACHE : LRUCache.t cache_key query_result)
  : endpoint_exn + (query_reply * LRUCache.t cache_key query_result) :=
  let q := default (JString EmptyString) (payload !! "query") in
  if negb (truthy q) then inr (ReplyError "empty query", QUERY_CACHE)
  else
    match q with
    | JString s =>
        match process_query w s QUERY_CACHE with
        | inr (r, cache) => inr (ReplyResult r, cache)
        | inl e => inl (EngineError e)
        end
    | _ => inl (AttributeError "object has no attribute 'lower'")
    end.

(** ** Concurrent batches *)

(** Where the coroutine of a batch stands: not started; between two files,
    with the number of files done; returned; or ended by an exception
    raised at a file. *)
Inductive phase : Type :=
| Pending
| Looping (files_done : nat)
| Finished
| Failed (files_done : nat) (e : exn).

(** The task [upload_documents] creates for one request. *)
Record task : Type := {
  task_env : ingest_env;
  task_job : string;
  task_files : list UploadFile;
  task_phase : phase
}.

Definition set_phase (p : phase) (t : task) : task :=
  {| task_env := task_env t; task_job := task_job t;
     task_files := task_files t; task_phase := p |}.

(** One turn of a task on the event loop: the statements of
    [process_documents] from one [await] to the next.  The first turn
    registers the job and, for an empty batch, completes it at once; a
    turn between two files ingests the next file, or marks the job
    complete after the last one.  A statement that raises ends the task and
    leaves the state as it was. *)
Definition task_step (t : task) (st : ingest_state) : task * ingest_state :=
  match task_phase t with
  | Pending =>
      let st0 := start_job (task_files t) (task_job t) st in
      match task_files t with
      | [] =>
          match finish_job (task_job t) st0 with
          | inr st' => (set_phase Finished t, st')
          | inl e => (set_phase (Failed 0 e) t, st0)
          end
      | _ :: _ => (set_phase (Looping 0) t, st0)
      end
  | Looping i =>
      match task_files t !! i with
      | Some file =>
          match ingest_file (task_env t) i (task_job t) file st with
          | inr st' => (set_phase (Looping (S i)) t, st')
          | inl e => (set_phase (Failed i e) t, st)
          end
      | None =>
          match finish_job (task_job t) st with
          | inr st' => (set_phase Finished t, st')
          | inl e => (set_phase (Failed i e) t, st)
          end
      end
  | Finished | Failed _ _ => (t, st)
  end.

(** The job table and store with the tasks that are under way. *)
Record system : Type := {
  sys_state : ingest_state;
  sys_tasks : list task
}.

(** What happens on the event loop: a request to [upload_documents], which
    draws a job identifier and creates the task, or one more turn of the
    n-th task. *)
Inductive event : Type :=
| Upload (env : ingest_env) (job_id : string) (files : list UploadFile)
| Resume (n : nat).

Definition sys_step (s : system) (e : event) : system :=
  match e with
  | Upload env job_id files =>
      {| sys_state := sys_state s;
         sys_tasks := sys_tasks s
                        ++ [{| task_env := env; task_job := job_id;
                               task_files := files; task_phase := Pending |}] |}
  | Resume n =>
      match sys_tasks s !! n with
      | Some t =>
          let '(t', st') := task_step t (sys_state s) in
          {| sys_state := st'; sys_tasks := <[n := t']> (sys_tasks s) |}
      | None => s
      end
  end.

Definition sys_run (events : list event) (s : system) : system :=
  foldl sys_step s events.

(** The job identifiers the uploads of a sequence of events draw. *)
Definition uploaded_jobs (events : list event) : list string :=
  omap (fun e => match e with
                 | Upload _ job_id _ => Some job_id
                 | Resume _ => None
                 end) events.

(** The server when it starts: an empty job table, no task. *)
Definition boot (db : doc_store) : system :=
  {| sys_state := {| INGEST_STATUS := ∅; store := db |}; sys_tasks := [] |}.

(** The entry of a job as the progress of its task dictates it. *)
Definition entry_of_phase (t : task) : option job :=
  match task_phase t with
  | Pending => None
  | Looping i | Failed i _ =>
      Some {| total := length (task_files t); processed := i; done := false |}
  | Finished =>
      Some {| total := length (task_files t);
              processed := length (task_files t); done := true |}
  end.

(** A later entry of a job compared with an earlier one: the same total, no
    fewer files processed, and nothing changed once complete. *)
Definition entry_le (e1 e2 : job) : Prop :=
  total e1 = total e2 /\ processed e1 <= processed e2 /\
  (done e1 = true -> e2 = e1).

(** A task and the job table agree: the entry of the job is the one the
    progress of the task dictates, the number of files done is within the
    batch, and a task that failed did so on a taken identifier. *)
Definition task_ok (st : ingest_state) (t : task) : Prop :=
  INGEST_STATUS st !! task_job t = entry_of_phase t /\
  match task_phase t with
  | Pending | Finished => True
  | Looping i => i <= length (task_files t) /\ task_files t <> []
  | Failed i e =>
      i < length (task_files t) /\
      e = IntegrityError "UNIQUE constraint failed: documents.doc_id"
  end.

(** The invariant of the running server. *)
Definition sys_ok (s : system) : Prop :=
  store_ok (store (sys_state s)) /\
  NoDup (task_job <$> sys_tasks s) /\
  (forall j, is_Some (INGEST_STATUS (sys_state s) !! j) ->
             j ∈ task_job <$> sys_tasks s) /\
  Forall (task_ok (sys_state s)) (sys_tasks s).

(** The number of files a task has behind it. *)
Definition files_done (t : task) : nat :=
  match task_phase t with
  | Pending => 0
  | Looping i | Failed i _ => i
  | Finished => length (task_files t)
  end.

(** The documents of the files a task has behind it are in the store. *)
Definition stored (st : ingest_state) (t : task) : Prop :=
  forall d,
    d ∈ take (files_done t) (new_documents (task_env t) 0 (task_files t)) ->
    d ∈ documents (store st).

(** * Properties *)

(** A decidable fact about closed data, settled by evaluation. *)
Ltac by_evaluation := apply (bool_decide_unpack _); vm_compute; exact I.

(** ** Text *)






(** ** Classifier *)

Lemma classifier_by_triggers (q : string) :
  simple_query_classifier q =
    if mentions text_triggers q then QDoc
    else if mentions structured_triggers q then QSql
    else QHybrid.
Proof.
  unfold simple_query_classifier, mentions, text_triggers, structured_triggers.
  cbn [existsb]. now rewrite !orb_false_r, !orb_assoc.
Qed.

(** C2. The classifier is a keyword matcher that looks for the text triggers
    first: the two sample queries go to the structured and to the text
    route, a query that mentions a text trigger goes to the text route
    whatever else it mentions (so also when it mentions a structured
    trigger), a query with a structured trigger and no text trigger goes to
    the structured route, and any other query is hybrid. *)
Theorem classifier_text_before_structured :
  simple_query_classifier "How many employees do we have?" = QSql /\
  simple_query_classifier "Find resumes with Python skill" = QDoc /\
  forall q : string,
    (mentions text_triggers q = true ->
       mentions structured_triggers q = true ->
       simple_query_classifier q = QDoc) /\
    (mentions text_triggers q = true -> simple_query_classifier q = QDoc) /\
    (mentions text_triggers q = false ->
       mentions structured_triggers q = true ->
       simple_query_classifier q = QSql) /\
    (mentions text_triggers q = false ->
       mentions structured_triggers q = false ->
       simple_query_classifier q = QHybrid).
Proof.
  split; [reflexivity|]. split; [reflexivity|].
  intros q. rewrite classifier_by_triggers.
  repeat split; intros; repeat match goal with H : _ = _ |- _ => rewrite H end;
    reflexivity.
Qed.

Lemma classifier_text_before_structured_witness :
  mentions text_triggers "salary of the employee with a Java skill" = true /\
  mentions structured_triggers "salary of the employee with a Java skill" = true /\
  simple_query_classifier "salary of the employee with a Java skill" = QDoc.
Proof.
  split; [reflexivity|]. split; [reflexivity|].
  destruct classifier_text_before_structured as (_ & _ & H).
  apply (H "salary of the employee with a Java skill"); reflexivity.
Defined.

(** ** Translator *)

Lemma nl_to_sql_eqb_empty (year : N) (q : string) :
  String.eqb (_nl_to_sql year q).1 EmptyString = false.
Proof.
  unfold _nl_to_sql.
  repeat match goal with |- context [if ?b then _ else _] => destruct b end;
    reflexivity.
Qed.

Lemma compute_results_structured (w : world) (q : string) :
  compute_results w q QSql =
    match execute w (_nl_to_sql (tm_year w) q).1
                    (_nl_to_sql (tm_year w) q).2 with
    | inl msg => ErrorPayload msg
    | inr (cols, rows) => Rows (map (dict_zip cols) rows)
    end.
Proof.
  unfold compute_results. pose proof (nl_to_sql_eqb_empty (tm_year w) q) as H.
  destruct (_nl_to_sql (tm_year w) q) as [sql params].
  simpl in *. now rewrite H.
Qed.




(** ** Schema discovery *)

Lemma substring_whole (s : string) :
  String.substring 0 (String.length s) s = s.
Proof. induction s as [|c s IH]; simpl; [reflexivity|now rewrite IH]. Qed.

Lemma substring_split (s : string) (m : nat) :
  m <= String.length s ->
  String.append (String.substring 0 m s)
                (String.substring m (String.length s - m) s) = s.
Proof.
  revert m. induction s as [|c s IH]; intros m Hm.
  - destruct m; [reflexivity|simpl in Hm; lia].
  - destruct m as [|m].
    + rewrite Nat.sub_0_r, substring_whole. reflexivity.
    + simpl in *. change (String c (substring 0 m s) +:+ ?y)
        with (String c (substring 0 m s +:+ y)).
      f_equal. apply IH. lia.
Qed.

(** A text that ends with [suffix] is what [drop_last] keeps, followed by
    [suffix]. *)
Lemma endswith_drop_last (s suffix : string) :
  Text.endswith s suffix = true ->
  String.append (Text.drop_last (String.length suffix) s) suffix = s.
Proof.
  unfold Text.endswith, Text.drop_last.
  intros [Hle Heq]%andb_true_iff.
  apply Nat.leb_le in Hle. apply String.eqb_eq in Heq.
  pose proof (substring_split s (String.length s - String.length suffix)
                ltac:(lia)) as Hsplit.
  replace (String.length s - (String.length s - String.length suffix))
    with (String.length suffix) in Hsplit by lia.
  now rewrite Heq in Hsplit.
Qed.

(** C9, as stated, fails on the demo schema: [departments.dept_id] is the
    primary key of its table and still gets a relationship. *)
Lemma departments_own_key_is_related :
  ti 0 "dept_id" "INTEGER" 1 ∈ obj_table_info demo_departments /\
  {| rel_column := "dept_id"; likely_ref_table := "dept" |}
    ∈ relationships (analyze_table demo_departments) /\
  ~ relates_all_but_own_key demo_departments.
Proof.
  assert (Hin : ti 0 "dept_id" "INTEGER" 1 ∈ obj_table_info demo_departments)
    by (simpl; left).
  assert (Hrel : {| rel_column := "dept_id"; likely_ref_table := "dept" |}
                   ∈ relationships (analyze_table demo_departments))
    by (vm_compute; left).
  split; [exact Hin|]. split; [exact Hrel|].
  intros Hclaim. destruct (Hclaim _ Hin) as [Hto _].
  destruct Hto as [_ Hpk]; [eauto|]. discriminate Hpk.
Qed.

(** C9, amended.  A relationship is inferred for a column exactly when its
    name ends in [_id] and is not the name [emp_id]; whether the column is a
    primary key plays no part.  The referenced table is the column name
    without its last three characters, so the column name is that table
    name followed by [_id].  The tables of the snapshot are the analysed
    user tables, and do not depend on the clock. *)
Theorem relationships_by_column_name (t : db_object) :
  (forall rel : relationship,
     rel ∈ relationships (analyze_table t) <->
     exists r : table_info_row,
       r ∈ obj_table_info t /\
       Text.endswith (ti_name r) "_id" = true /\
       ti_name r <> "emp_id" /\
       rel = {| rel_column := ti_name r;
                likely_ref_table := Text.drop_last 3 (ti_name r) |}) /\
  (forall rel : relationship,
     rel ∈ relationships (analyze_table t) ->
     rel_column rel = String.append (likely_ref_table rel) "_id") /\
  (forall (db : list db_object) (now now' : timestamp),
     tables (analyze_database db now) = tables (analyze_database db now')) /\
  (forall (db : list db_object) (now : timestamp),
     t ∈ db -> obj_type t = "table" -> like_sqlite_ (obj_name t) = false ->
     (obj_name t, analyze_table t) ∈ tables (analyze_database db now)).
Proof.
  assert (Hchar : forall rel : relationship,
     rel ∈ relationships (analyze_table t) <->
     exists r : table_info_row,
       r ∈ obj_table_info t /\
       Text.endswith (ti_name r) "_id" = true /\
       ti_name r <> "emp_id" /\
       rel = {| rel_column := ti_name r;
                likely_ref_table := Text.drop_last 3 (ti_name r) |}).
  { intros rel. unfold analyze_table, infer_relationships. cbn [relationships].
    rewrite list_elem_of_omap. split.
    - intros (c & Hc & Hsome).
      apply list_elem_of_fmap in Hc as (r & -> & Hr).
      cbn [col_name] in Hsome.
      destruct (Text.endswith (ti_name r) "_id") eqn:He; [|discriminate].
      destruct (String.eqb (ti_name r) "emp_id") eqn:Hn; [discriminate|].
      simpl in Hsome. injection Hsome as <-.
      exists r. repeat split; auto. now apply String.eqb_neq.
    - intros (r & Hr & He & Hn & ->).
      exists {| col_name := ti_name r; col_type := ti_type r |}. split.
      + apply list_elem_of_fmap. eauto.
      + cbn [col_name]. rewrite He.
        apply String.eqb_neq in Hn. now rewrite Hn. }
  split; [exact Hchar|]. split; [|split].
  - intros rel (r & _ & He & _ & ->)%Hchar. cbn.
    symmetry. exact (endswith_drop_last (ti_name r) "_id" He).
  - reflexivity.
  - intros db now Hin Hty Hname. unfold analyze_database. cbn [tables].
    apply list_elem_of_fmap. exists t. split; [reflexivity|].
    apply list_elem_of_filter. split; [|exact Hin].
    split; [|exact Hname]. rewrite Hty. reflexivity.
Qed.

(** ** The cache operations *)

Section LRUCacheFacts.
Context {K V : Type} `{EqDecision K}.
Implicit Types (c : LRUCache.t K V) (k : K) (v : V).

Lemma lru_get_None k c : k ∉ LRUCache.keys c -> LRUCache.get k c = None.
Proof.
  induction c as [|[k' v'] c IH]; [reflexivity|].
  unfold LRUCache.keys. cbn. intros Hn.
  apply not_elem_of_cons in Hn as [Hne Hn].
  destruct (decide (k' = k)); [congruence|]. now apply IH.
Qed.

Lemma lru_get_is_Some k c : k ∈ LRUCache.keys c -> is_Some (LRUCache.get k c).
Proof.
  induction c as [|[k' v'] c IH]; unfold LRUCache.keys; cbn.
  - intros Hin. now apply elem_of_nil in Hin.
  - intros Hin. destruct (decide (k' = k)); [eauto|].
    apply elem_of_cons in Hin as [->|Hin]; [congruence|]. now apply IH.
Qed.

Lemma lru_contains_true k c :
  LRUCache.contains k c = true <-> k ∈ LRUCache.keys c.
Proof. unfold LRUCache.contains. apply bool_decide_eq_true. Qed.

Lemma lru_contains_false k c :
  LRUCache.contains k c = false <-> k ∉ LRUCache.keys c.
Proof. unfold LRUCache.contains. apply bool_decide_eq_false. Qed.

Lemma lru_get_app k c1 c2 :
  LRUCache.get k (c1 ++ c2) =
    match LRUCache.get k c1 with
    | Some v => Some v
    | None => LRUCache.get k c2
    end.
Proof.
  induction c1 as [|[k' v'] c1 IH]; [reflexivity|]. cbn.
  destruct (decide (k' = k)); [reflexivity|apply IH].
Qed.

Lemma lru_keys_app c1 c2 :
  LRUCache.keys (c1 ++ c2) = LRUCache.keys c1 ++ LRUCache.keys c2.
Proof. unfold LRUCache.keys. apply fmap_app. Qed.

Lemma lru_remove_keys k k' c :
  k' ∈ LRUCache.keys (LRUCache.remove k c) <-> k' ∈ LRUCache.keys c /\ k' <> k.
Proof.
  unfold LRUCache.keys, LRUCache.remove. rewrite !list_elem_of_fmap. split.
  - intros ([k1 v1] & -> & [Hne Hin]%list_elem_of_filter). split; eauto.
  - intros [([k1 v1] & -> & Hin) Hne]. exists (k1, v1). split; [reflexivity|].
    apply list_elem_of_filter. auto.
Qed.

Lemma lru_remove_absent k c : k ∉ LRUCache.keys (LRUCache.remove k c).
Proof. rewrite lru_remove_keys. tauto. Qed.

Lemma lru_remove_notin k c : k ∉ LRUCache.keys c -> LRUCache.remove k c = c.
Proof.
  induction c as [|[k' v'] c IH]; [reflexivity|].
  unfold LRUCache.keys, LRUCache.remove. rewrite fmap_cons.
  intros [Hne Hn]%not_elem_of_cons. cbn [fst] in Hne.
  rewrite filter_cons_True by (cbn; congruence).
  f_equal. now apply IH.
Qed.

Lemma lru_remove_length k c :
  length (LRUCache.remove k c) <= length c.
Proof. apply length_filter. Qed.

Lemma lru_remove_length_in k c :
  k ∈ LRUCache.keys c -> length (LRUCache.remove k c) + 1 <= length c.
Proof.
  induction c as [|[k' v'] c IH]; unfold LRUCache.keys, LRUCache.remove.
  - intros Hin. now apply elem_of_nil in Hin.
  - rewrite fmap_cons. cbn [fst length].
    intros Hin. destruct (decide (k' = k)) as [->|Hne].
    + rewrite filter_cons_False by (cbn; tauto).
      pose proof (lru_remove_length k c). unfold LRUCache.remove in *. lia.
    + rewrite filter_cons_True by (cbn; congruence). cbn [length].
      apply elem_of_cons in Hin as [->|Hin]; [congruence|].
      specialize (IH Hin). unfold LRUCache.remove in IH. lia.
Qed.

Lemma lru_remove_NoDup k c :
  NoDup (LRUCache.keys c) -> NoDup (LRUCache.keys (LRUCache.remove k c)).
Proof.
  induction c as [|[k' v'] c IH]; unfold LRUCache.keys, LRUCache.remove.
  - constructor.
  - rewrite fmap_cons. cbn [fst]. intros [Hn Hnd]%NoDup_cons.
    destruct (decide (k' = k)) as [->|Hne].
    + rewrite filter_cons_False by (cbn; tauto). now apply IH.
    + rewrite filter_cons_True by (cbn; congruence). rewrite fmap_cons.
      apply NoDup_cons. split; [|now apply IH]. cbn [fst].
      intros Hin. apply Hn.
      now apply (lru_remove_keys k k' c) in Hin as [Hin _].
Qed.

Lemma lru_mutate_keys k (f : V -> V) c :
  LRUCache.keys (LRUCache.mutate k f c) = LRUCache.keys c.
Proof.
  unfold LRUCache.keys, LRUCache.mutate.
  induction c as [|[k' v'] c IH]; [reflexivity|]. cbn.
  f_equal; [|apply IH]. now destruct (decide (k' = k)).
Qed.

Lemma lru_mutate_notin k (f : V -> V) c :
  k ∉ LRUCache.keys c -> LRUCache.mutate k f c = c.
Proof.
  induction c as [|[k' v'] c IH]; [reflexivity|].
  unfold LRUCache.keys, LRUCache.mutate. cbn.
  intros [Hne Hn]%not_elem_of_cons.
  destruct (decide (k' = k)); [congruence|]. f_equal. now apply IH.
Qed.

Lemma lru_mutate_app k (f : V -> V) c1 c2 :
  LRUCache.mutate k f (c1 ++ c2) =
    LRUCache.mutate k f c1 ++ LRUCache.mutate k f c2.
Proof. unfold LRUCache.mutate. apply map_app. Qed.

(** Eviction drops entries from the least recent end only. *)
Lemma lru_evict_suffix (maxsize : nat) c :
  LRUCache.evict maxsize c `suffix_of` c.
Proof.
  induction c as [|e c IH]; [reflexivity|]. cbn [LRUCache.evict].
  destruct (maxsize <? LRUCache.currsize (e :: c) + 1)%nat.
  - now apply suffix_cons_r.
  - reflexivity.
Qed.

Lemma lru_evict_fits (maxsize : nat) c :
  length c + 1 <= maxsize -> LRUCache.evict maxsize c = c.
Proof.
  destruct c as [|e c]; [reflexivity|]. cbn [LRUCache.evict].
  unfold LRUCache.currsize. intros Hle.
  destruct (Nat.ltb_spec maxsize (length (e :: c) + 1)); [lia|reflexivity].
Qed.

Lemma lru_evict_room (maxsize : nat) c :
  1 <= maxsize -> length (LRUCache.evict maxsize c) + 1 <= maxsize.
Proof.
  intros Hm. induction c as [|e c IH]; [cbn; lia|]. cbn [LRUCache.evict].
  unfold LRUCache.currsize.
  destruct (Nat.ltb_spec maxsize (length (e :: c) + 1)); [exact IH|lia].
Qed.

(** A full cache loses exactly its least recently used entry. *)
Lemma lru_evict_full (maxsize : nat) c :
  1 <= maxsize -> length c = maxsize -> LRUCache.evict maxsize c = tail c.
Proof.
  intros Hm Hlen. destruct c as [|e c]; [reflexivity|]. cbn [LRUCache.evict].
  unfold LRUCache.currsize.
  destruct (Nat.ltb_spec maxsize (length (e :: c) + 1)); [|lia].
  cbn [tail]. apply lru_evict_fits. cbn in Hlen. lia.
Qed.

Lemma lru_evict_keys (maxsize : nat) k c :
  k ∈ LRUCache.keys (LRUCache.evict maxsize c) -> k ∈ LRUCache.keys c.
Proof.
  destruct (lru_evict_suffix maxsize c) as [pre Heq].
  rewrite Heq at 2. rewrite lru_keys_app, elem_of_app. auto.
Qed.

Lemma lru_evict_NoDup (maxsize : nat) c :
  NoDup (LRUCache.keys c) -> NoDup (LRUCache.keys (LRUCache.evict maxsize c)).
Proof.
  destruct (lru_evict_suffix maxsize c) as [pre Heq].
  rewrite Heq at 1. rewrite lru_keys_app. now intros [_ [_ ?]]%NoDup_app.
Qed.

End LRUCacheFacts.

Section LRUCacheOperations.
Context {K V : Type} `{EqDecision K}.
Implicit Types (c : list (K * V)) (k : K) (v : V).

(** Reading a present key returns its value and makes the key the most
    recently used one; nothing else moves. *)
Lemma lru_getitem_present k c :
  k ∈ LRUCache.keys c ->
  exists v, LRUCache.get k c = Some v /\
            LRUCache.getitem k c = inr (v, LRUCache.remove k c ++ [(k, v)]).
Proof.
  intros [v Hv]%lru_get_is_Some. exists v. split; [exact Hv|].
  unfold LRUCache.getitem. now rewrite Hv.
Qed.

Lemma lru_getitem_inv k v c c' :
  LRUCache.getitem k c = inr (v, c') ->
  LRUCache.get k c = Some v /\ c' = LRUCache.remove k c ++ [(k, v)] /\
  k ∈ LRUCache.keys c.
Proof.
  unfold LRUCache.getitem.
  destruct (LRUCache.get k c) as [v0|] eqn:Hg; [|discriminate].
  intros [= -> <-]. repeat split.
  destruct (decide (k ∈ LRUCache.keys c)) as [|Hn]; [assumption|].
  rewrite lru_get_None in Hg by assumption. discriminate.
Qed.

(** The entry just read or written is found again. *)
Lemma lru_get_moved k v c :
  LRUCache.get k (LRUCache.remove k c ++ [(k, v)]) = Some v.
Proof.
  rewrite lru_get_app, lru_get_None by apply lru_remove_absent.
  cbn. now rewrite decide_True.
Qed.

Lemma lru_get_appended k v c :
  k ∉ LRUCache.keys c -> LRUCache.get k (c ++ [(k, v)]) = Some v.
Proof.
  intros Hn. rewrite lru_get_app, lru_get_None by assumption.
  cbn. now rewrite decide_True.
Qed.

Lemma lru_setitem_new (maxsize : nat) k v c :
  1 <= maxsize -> k ∉ LRUCache.keys c ->
  LRUCache.setitem maxsize k v c = inr (LRUCache.evict maxsize c ++ [(k, v)]).
Proof.
  intros Hm Hn. unfold LRUCache.setitem.
  destruct (Nat.ltb_spec maxsize 1); [lia|].
  apply lru_contains_false in Hn. now rewrite Hn.
Qed.

Lemma lru_setitem_present (maxsize : nat) k v c :
  1 <= maxsize -> k ∈ LRUCache.keys c ->
  LRUCache.setitem maxsize k v c = inr (LRUCache.remove k c ++ [(k, v)]).
Proof.
  intros Hm Hin. unfold LRUCache.setitem.
  destruct (Nat.ltb_spec maxsize 1); [lia|].
  apply lru_contains_true in Hin. now rewrite Hin.
Qed.

(** Writing never leaves more entries than the capacity, and keeps the keys
    distinct. *)
Lemma lru_setitem_bounded (maxsize : nat) k v c :
  1 <= maxsize -> length c <= maxsize ->
  exists c', LRUCache.setitem maxsize k v c = inr c' /\
             length c' <= maxsize /\
             LRUCache.get k c' = Some v /\
             (NoDup (LRUCache.keys c) -> NoDup (LRUCache.keys c')).
Proof.
  intros Hm Hlen. destruct (decide (k ∈ LRUCache.keys c)) as [Hin|Hn].
  - exists (LRUCache.remove k c ++ [(k, v)]).
    split; [now apply lru_setitem_present|]. split; [|split].
    + rewrite length_app. cbn. pose proof (lru_remove_length_in k c Hin). lia.
    + apply lru_get_moved.
    + intros Hnd. rewrite lru_keys_app. apply NoDup_app.
      split; [now apply lru_remove_NoDup|]. split; [|apply NoDup_singleton].
      intros k' Hk' ->%list_elem_of_singleton.
      now apply lru_remove_absent in Hk'.
  - exists (LRUCache.evict maxsize c ++ [(k, v)]).
    split; [now apply lru_setitem_new|]. split; [|split].
    + rewrite length_app. cbn. pose proof (lru_evict_room maxsize c Hm). lia.
    + apply lru_get_appended. intros Hin. apply Hn.
      now apply lru_evict_keys in Hin.
    + intros Hnd. rewrite lru_keys_app. apply NoDup_app.
      split; [now apply lru_evict_NoDup|]. split; [|apply NoDup_singleton].
      intros k' Hk' ->%list_elem_of_singleton.
      apply Hn. now apply lru_evict_keys in Hk'.
Qed.

(** Filling an empty cache with distinct keys up to its capacity keeps every
    entry, in the order of insertion. *)
Lemma lru_put_all_distinct (maxsize : nat) (kvs : list (K * V)) c :
  1 <= maxsize ->
  NoDup (LRUCache.keys (c ++ kvs)) -> length (c ++ kvs) <= maxsize ->
  LRUCache.put_all maxsize kvs c = inr (c ++ kvs).
Proof.
  intros Hm. revert c. induction kvs as [|[k v] kvs IH]; intros c Hnd Hlen.
  - cbn. now rewrite app_nil_r.
  - cbn [LRUCache.put_all].
    assert (Hk : k ∉ LRUCache.keys c).
    { rewrite lru_keys_app in Hnd. apply NoDup_app in Hnd as (_ & Hdis & _).
      intros Hin. apply (Hdis k Hin). unfold LRUCache.keys. cbn. left. }
    rewrite lru_setitem_new by assumption.
    rewrite lru_evict_fits
      by (rewrite length_app in Hlen; cbn in Hlen; lia).
    cbn [bind]. rewrite (cons_middle (k, v) c kvs), app_assoc in Hnd, Hlen |- *.
    now apply IH.
Qed.

End LRUCacheOperations.

(** ** Query engine *)

Lemma process_query_hit (w : world) (q : string)
    (cache : list (cache_key * query_result)) :
  LRUCache.contains (q, simple_query_classifier q) cache = true ->
  exists stored : query_result,
    LRUCache.get (q, simple_query_classifier q) cache = Some stored /\
    process_query w q cache =
      inr (set_cached true stored,
           LRUCache.remove (q, simple_query_classifier q) cache
             ++ [((q, simple_query_classifier q), set_cached true stored)]).
Proof.
  intros Hc. unfold process_query. rewrite Hc.
  apply lru_contains_true in Hc.
  destruct (lru_getitem_present _ _ Hc) as (stored & Hget & ->).
  exists stored. split; [exact Hget|]. cbn [bind fst snd]. unfold ret.
  do 2 f_equal. rewrite lru_mutate_app.
  rewrite lru_mutate_notin by apply lru_remove_absent.
  cbn. now rewrite decide_True.
Qed.

Lemma process_query_miss (w : world) (q : string)
    (cache : list (cache_key * query_result)) :
  LRUCache.contains (q, simple_query_classifier q) cache = false ->
  process_query w q cache =
    inr (fresh_result w q,
         LRUCache.evict QUERY_CACHE_maxsize cache
           ++ [((q, simple_query_classifier q), fresh_result w q)]).
Proof.
  intros Hc. unfold process_query. rewrite Hc.
  apply lru_contains_false in Hc.
  fold (fresh_result w q).
  rewrite lru_setitem_new; [reflexivity|unfold QUERY_CACHE_maxsize; lia|exact Hc].
Qed.

(** C7. A call of [process_query] always returns.  On the structured route,
    when the query is not cached and executing the translated statement
    raises, the call returns a result that is not marked as a hit and whose
    payload is the error with the message of the exception; the same
    result is stored in the cache. *)
Theorem process_query_captures_execution_error :
  (forall (w : world) (q : string) (cache : LRUCache.t cache_key query_result),
     exists r cache', process_query w q cache = inr (r, cache')) /\
  (forall (w : world) (q : string) (cache : LRUCache.t cache_key query_result)
          (msg : string),
     simple_query_classifier q = QSql ->
     LRUCache.contains (q, QSql) cache = false ->
     execute w (_nl_to_sql (tm_year w) q).1 (_nl_to_sql (tm_year w) q).2
       = inl msg ->
     exists cache',
       process_query w q cache =
         inr ({| qr_query := q; qr_type := QSql; qr_cached := false;
                 qr_results := ErrorPayload msg |}, cache') /\
       LRUCache.get (q, QSql) cache' =
         Some {| qr_query := q; qr_type := QSql; qr_cached := false;
                 qr_results := ErrorPayload msg |}).
Proof.
  split.
  - intros w q cache.
    destruct (LRUCache.contains (q, simple_query_classifier q) cache) eqn:Hc.
    + destruct (process_query_hit w q cache Hc) as (stored & _ & ->). eauto.
    + rewrite (process_query_miss w q cache Hc). eauto.
  - intros w q cache msg Hroute Hc Hexec.
    rewrite <- Hroute in Hc.
    rewrite (process_query_miss w q cache Hc).
    assert (Hres : fresh_result w q =
                   {| qr_query := q; qr_type := QSql; qr_cached := false;
                      qr_results := ErrorPayload msg |}).
    { unfold fresh_result. rewrite Hroute. f_equal.
      rewrite compute_results_structured. now rewrite Hexec. }
    rewrite Hres, Hroute. eexists. split; [reflexivity|].
    apply lru_get_appended. intros Hin. apply lru_evict_keys in Hin.
    apply lru_contains_false in Hc. rewrite Hroute in Hc. contradiction.
Qed.

Lemma process_query_captures_execution_error_witness :
  simple_query_classifier "How many employees do we have?" = QSql /\
  exists cache',
    process_query failing_world "How many employees do we have?" [] =
      inr ({| qr_query := "How many employees do we have?"; qr_type := QSql;
              qr_cached := false;
              qr_results := ErrorPayload "no such table: employees" |}, cache').
Proof.
  split; [reflexivity|].
  destruct process_query_captures_execution_error as [_ H].
  destruct (H failing_world "How many employees do we have?" []
              "no such table: employees") as (cache' & Hrun & _);
    [reflexivity..|].
  exists cache'. exact Hrun.
Defined.

(** ** Bounded cache with least-recently-used eviction *)

Section LRUCacheEviction.
Context {K V : Type} `{EqDecision K}.
Implicit Types (c : list (K * V)) (k : K) (v : V).

Lemma lru_remove_length_NoDup k c :
  NoDup (LRUCache.keys c) -> k ∈ LRUCache.keys c ->
  length (LRUCache.remove k c) + 1 = length c.
Proof.
  induction c as [|[k' v'] c IH]; unfold LRUCache.keys, LRUCache.remove.
  - intros _ Hin. now apply elem_of_nil in Hin.
  - rewrite fmap_cons. cbn [fst length].
    intros [Hn Hnd]%NoDup_cons Hin. destruct (decide (k' = k)) as [->|Hne].
    + rewrite filter_cons_False by (cbn; tauto).
      fold (LRUCache.remove k c). rewrite lru_remove_notin by exact Hn. lia.
    + rewrite filter_cons_True by (cbn; congruence). cbn [length].
      apply elem_of_cons in Hin as [->|Hin]; [congruence|].
      specialize (IH Hnd Hin). unfold LRUCache.remove in IH. lia.
Qed.

Lemma lru_tail_keys k c : k ∈ LRUCache.keys (tail c) -> k ∈ LRUCache.keys c.
Proof.
  destruct c as [|e c]; [auto|]. unfold LRUCache.keys. cbn.
  intros Hin. now right.
Qed.

(** A key read just before an insertion that overflows the cache survives
    the insertion: the entry that goes is the least recently used of the
    others. *)
Lemma lru_read_protects (maxsize : nat) k v k' v' c c1 :
  2 <= maxsize -> NoDup (LRUCache.keys c) -> length c = maxsize ->
  LRUCache.getitem k c = inr (v, c1) -> k' ∉ LRUCache.keys c ->
  LRUCache.setitem maxsize k' v' c1
    = inr (tail (LRUCache.remove k c) ++ [(k, v); (k', v')]) /\
  LRUCache.get k (tail (LRUCache.remove k c) ++ [(k, v); (k', v')]) = Some v /\
  length (tail (LRUCache.remove k c) ++ [(k, v); (k', v')]) = maxsize.
Proof.
  intros Hm Hnd Hlen (Hget & -> & Hin)%lru_getitem_inv Hk'.
  pose proof (lru_remove_length_NoDup k c Hnd Hin) as Hrem.
  assert (Hne : k' <> k) by (intros ->; contradiction).
  assert (Hnew : k' ∉ LRUCache.keys (LRUCache.remove k c ++ [(k, v)])).
  { rewrite lru_keys_app, elem_of_app. intros [Hi|Hi].
    - apply lru_remove_keys in Hi as [Hi _]. contradiction.
    - unfold LRUCache.keys in Hi. cbn in Hi.
      apply list_elem_of_singleton in Hi. contradiction. }
  rewrite lru_setitem_new by (try lia; exact Hnew).
  rewrite lru_evict_full by (try lia; rewrite length_app; cbn; lia).
  destruct (LRUCache.remove k c) as [|e rest] eqn:Hr; [cbn in Hrem; lia|].
  cbn [tail app]. rewrite <- app_assoc. cbn [app].
  split; [reflexivity|]. split.
  - rewrite lru_get_app, lru_get_None.
    + cbn. now rewrite decide_True.
    + intros Hi. apply (lru_remove_absent k c). rewrite Hr.
      unfold LRUCache.keys in *. cbn. now right.
  - rewrite length_app. cbn in *. lia.
Qed.

End LRUCacheEviction.

Lemma process_query_keeps_bound (w : world) (q : string) (r : query_result)
    (cache cache' : list (cache_key * query_result)) :
  process_query w q cache = inr (r, cache') ->
  length cache <= QUERY_CACHE_maxsize -> NoDup (LRUCache.keys cache) ->
  length cache' <= QUERY_CACHE_maxsize /\ NoDup (LRUCache.keys cache').
Proof.
  intros Hrun Hlen Hnd.
  destruct (LRUCache.contains (q, simple_query_classifier q) cache) eqn:Hc.
  - destruct (process_query_hit w q cache Hc) as (stored & _ & Heq).
    rewrite Heq in Hrun. injection Hrun as <- <-.
    apply lru_contains_true in Hc. split.
    + rewrite length_app. cbn [length].
      eapply Nat.le_trans; [exact (lru_remove_length_in _ _ Hc)|exact Hlen].
    + rewrite lru_keys_app. apply NoDup_app.
      split; [now apply lru_remove_NoDup|]. split; [|apply NoDup_singleton].
      intros k' Hk' ->%list_elem_of_singleton.
      now apply lru_remove_absent in Hk'.
  - rewrite (process_query_miss w q cache Hc) in Hrun.
    injection Hrun as <- <-. apply lru_contains_false in Hc. split.
    + rewrite length_app. cbn [length].
      apply (lru_evict_room QUERY_CACHE_maxsize cache).
      unfold QUERY_CACHE_maxsize. lia.
    + rewrite lru_keys_app. apply NoDup_app.
      split; [now apply lru_evict_NoDup|]. split; [|apply NoDup_singleton].
      intros k' Hk' ->%list_elem_of_singleton.
      apply Hc. now apply lru_evict_keys in Hk'.
Qed.

Lemma run_queries_bounded (calls : list (world * string))
    (cache : list (cache_key * query_result)) :
  length cache <= QUERY_CACHE_maxsize -> NoDup (LRUCache.keys cache) ->
  exists cache', run_queries calls cache = inr cache' /\
                 length cache' <= QUERY_CACHE_maxsize /\
                 NoDup (LRUCache.keys cache').
Proof.
  revert cache. induction calls as [|[w q] calls IH]; intros cache Hlen Hnd.
  - exists cache. repeat split; assumption.
  - cbn [run_queries].
    destruct (LRUCache.contains (q, simple_query_classifier q) cache) eqn:Hc.
    + destruct (process_query_hit w q cache Hc) as (stored & _ & Heq).
      destruct (process_query_keeps_bound _ _ _ _ _ Heq Hlen Hnd).
      rewrite Heq. cbn [bind snd]. now apply IH.
    + pose proof (process_query_miss w q cache Hc) as Heq.
      destruct (process_query_keeps_bound _ _ _ _ _ Heq Hlen Hnd).
      rewrite Heq. cbn [bind snd]. now apply IH.
Qed.

Section LRUCacheScenario.
Context {K V : Type} `{EqDecision K}.
Implicit Types (c : list (K * V)) (k : K) (v : V).

Lemma lru_put_all_app (maxsize : nat) (kvs1 kvs2 : list (K * V)) c :
  LRUCache.put_all maxsize (kvs1 ++ kvs2) c =
    (call c' <~ LRUCache.put_all maxsize kvs1 c in
     LRUCache.put_all maxsize kvs2 c').
Proof.
  revert c. induction kvs1 as [|[k v] kvs1 IH]; intros c; [reflexivity|].
  cbn [app LRUCache.put_all].
  destruct (LRUCache.setitem maxsize k v c) as [e|c']; [reflexivity|].
  cbn [bind]. apply IH.
Qed.

(** Capacity plus one distinct keys written to an empty cache: exactly the
    first one written is gone. *)
Lemma lru_overflow_evicts_first (maxsize : nat) (kvs : list (K * V)) k v :
  1 <= maxsize -> NoDup (LRUCache.keys (kvs ++ [(k, v)])) ->
  length kvs = maxsize ->
  LRUCache.put_all maxsize (kvs ++ [(k, v)]) [] = inr (tail kvs ++ [(k, v)]).
Proof.
  intros Hm Hnd Hlen. rewrite lru_put_all_app.
  assert (Hnd' : NoDup (LRUCache.keys kvs) /\ k ∉ LRUCache.keys kvs).
  { rewrite lru_keys_app in Hnd. apply NoDup_app in Hnd as (Hnd1 & Hdis & _).
    split; [exact Hnd1|]. intros Hin. apply (Hdis k Hin).
    unfold LRUCache.keys. cbn. left. }
  destruct Hnd' as [Hnd1 Hk].
  rewrite (lru_put_all_distinct maxsize kvs []) by (cbn; auto; lia).
  cbn [app bind LRUCache.put_all].
  rewrite lru_setitem_new by assumption.
  cbn [bind]. unfold ret. now rewrite lru_evict_full.
Qed.

(** The same with the first key read before the overflowing write: the
    first key stays, and the second one written goes. *)
Lemma lru_overflow_after_read (maxsize : nat) k0 v0 (rest : list (K * V)) k v :
  2 <= maxsize -> NoDup (LRUCache.keys ((k0, v0) :: rest ++ [(k, v)])) ->
  length ((k0, v0) :: rest) = maxsize ->
  (call c <~ LRUCache.put_all maxsize ((k0, v0) :: rest) [] in
   call read <~ LRUCache.getitem k0 c in
   LRUCache.setitem maxsize k v read.2)
  = inr (tail rest ++ [(k0, v0); (k, v)]).
Proof.
  intros Hm Hnd Hlen.
  change ((k0, v0) :: rest ++ [(k, v)]) with (((k0, v0) :: rest) ++ [(k, v)]) in Hnd.
  rewrite lru_keys_app in Hnd. apply NoDup_app in Hnd as (Hnd1 & Hdis & _).
  assert (Hk : k ∉ LRUCache.keys ((k0, v0) :: rest)).
  { intros Hin. apply (Hdis k Hin). unfold LRUCache.keys. cbn. left. }
  rewrite (lru_put_all_distinct maxsize ((k0, v0) :: rest) [])
    by (try lia; rewrite ?app_nil_l; auto; lia).
  rewrite app_nil_l. cbn [bind].
  assert (Hin0 : k0 ∈ LRUCache.keys ((k0, v0) :: rest))
    by (unfold LRUCache.keys; cbn; left).
  destruct (lru_getitem_present k0 _ Hin0) as (v0' & Hget & Hread).
  cbn in Hget. rewrite decide_True in Hget by reflexivity.
  injection Hget as <-.
  rewrite Hread. cbn [bind snd].
  destruct (lru_read_protects maxsize k0 v0 k v _ _ Hm Hnd1 Hlen Hread Hk)
    as (-> & _ & _).
  assert (Hrem : LRUCache.remove k0 ((k0, v0) :: rest) = rest).
  { unfold LRUCache.remove. rewrite filter_cons_False by (cbn; tauto).
    apply lru_remove_notin. unfold LRUCache.keys in Hnd1.
    rewrite fmap_cons in Hnd1. now apply NoDup_cons in Hnd1 as [? _]. }
  now rewrite Hrem.
Qed.

End LRUCacheScenario.

Lemma lru_remove_middle {K V : Type} `{EqDecision K} (k k' : K) (v : V)
    (pre post : list (K * V)) :
  k <> k' ->
  LRUCache.remove k' (pre ++ (k, v) :: post)
  = LRUCache.remove k' pre ++ (k, v) :: LRUCache.remove k' post.
Proof.
  intros Hne. unfold LRUCache.remove.
  rewrite filter_app, filter_cons_True by (cbn; congruence). reflexivity.
Qed.

(** One more query leaves an entry in the cache, at most one place further
    from the most recent end, unless the entry was the least recently used
    of a full cache. *)
Lemma process_query_keeps_entry (w : world) (q : string) (k : cache_key)
    (v : query_result) (pre post : list (cache_key * query_result)) :
  NoDup (LRUCache.keys (pre ++ (k, v) :: post)) ->
  length (pre ++ (k, v) :: post) <= QUERY_CACHE_maxsize ->
  length post + 1 < QUERY_CACHE_maxsize ->
  exists r v' pre' post',
    process_query w q (pre ++ (k, v) :: post)
      = inr (r, pre' ++ (k, v') :: post') /\
    qr_results v' = qr_results v /\
    length post' <= length post + 1.
Proof.
  intros Hnd Hlen Hrank.
  set (k' := (q, simple_query_classifier q)).
  assert (Hk : (k ∉ LRUCache.keys pre) /\ (k ∉ LRUCache.keys post)).
  { rewrite lru_keys_app in Hnd.
    apply NoDup_app in Hnd as (_ & Hdis & Hnd2).
    unfold LRUCache.keys in Hnd2. rewrite fmap_cons in Hnd2.
    apply NoDup_cons in Hnd2 as [Hpost _]. split; [|exact Hpost].
    intros Hin. apply (Hdis k Hin). unfold LRUCache.keys. cbn. left. }
  destruct Hk as [Hpre Hpost].
  destruct (LRUCache.contains k' (pre ++ (k, v) :: post)) eqn:Hc.
  - destruct (process_query_hit w q _ Hc) as (stored & Hget & ->).
    fold k' in Hget |- *.
    destruct (decide (k = k')) as [<-|Hne].
    + assert (stored = v) as ->.
      { rewrite lru_get_app, (lru_get_None k pre Hpre) in Hget.
        cbn in Hget. rewrite decide_True in Hget by reflexivity. congruence. }
      eexists _, (set_cached true v),
        (LRUCache.remove k (pre ++ (k, v) :: post)), [].
      split; [reflexivity|]. split; [reflexivity|]. cbn. lia.
    + rewrite lru_remove_middle by exact Hne.
      eexists _, v, (LRUCache.remove k' pre),
        (LRUCache.remove k' post ++ [(k', set_cached true stored)]).
      split; [now rewrite <- app_assoc|]. split; [reflexivity|].
      rewrite length_app. cbn [length].
      apply Nat.add_le_mono_r, lru_remove_length.
  - rewrite (process_query_miss w q _ Hc). fold k'.
    assert (Hevict : exists pre',
               LRUCache.evict QUERY_CACHE_maxsize (pre ++ (k, v) :: post)
               = pre' ++ (k, v) :: post).
    { destruct (decide (length (pre ++ (k, v) :: post) + 1
                        <= QUERY_CACHE_maxsize)) as [Hfit|Hfull].
      - rewrite lru_evict_fits by exact Hfit. now exists pre.
      - rewrite lru_evict_full by (unfold QUERY_CACHE_maxsize in *; lia).
        destruct pre as [|e pre]; [|now exists pre].
        cbn [app length] in *. lia. }
    destruct Hevict as [pre' ->].
    eexists _, v, pre', (post ++ [(k', fresh_result w q)]).
    split; [now rewrite <- app_assoc|]. split; [reflexivity|].
    rewrite length_app. cbn. lia.
Qed.

Lemma run_queries_keeps_entry (calls : list (world * string)) (k : cache_key)
    (v : query_result) (pre post : list (cache_key * query_result)) :
  NoDup (LRUCache.keys (pre ++ (k, v) :: post)) ->
  length (pre ++ (k, v) :: post) <= QUERY_CACHE_maxsize ->
  length post + length calls < QUERY_CACHE_maxsize ->
  exists v' pre' post',
    run_queries calls (pre ++ (k, v) :: post)
      = inr (pre' ++ (k, v') :: post') /\
    NoDup (LRUCache.keys (pre' ++ (k, v') :: post')) /\
    qr_results v' = qr_results v.
Proof.
  revert v pre post.
  induction calls as [|[w q] calls IH]; intros v pre post Hnd Hlen Hrank.
  - exists v, pre, post. repeat split; assumption.
  - cbn [length] in Hrank. cbn [run_queries].
    destruct (process_query_keeps_entry w q k v pre post Hnd Hlen ltac:(lia))
      as (r & v1 & pre1 & post1 & Hrun & Hres & Hpost1).
    destruct (process_query_keeps_bound _ _ _ _ _ Hrun Hlen Hnd) as [Hlen1 Hnd1].
    rewrite Hrun. cbn [bind snd].
    destruct (IH v1 pre1 post1 Hnd1 Hlen1 ltac:(lia))
      as (v' & pre' & post' & Hrun' & Hnd' & Hres').
    exists v', pre', post'. repeat split; [assumption..|congruence].
Qed.

(** A call stores what it returns, as the most recent entry. *)
Lemma process_query_stores (w : world) (q : string)
    (cache : list (cache_key * query_result)) :
  exists r pre,
    process_query w q cache
      = inr (r, pre ++ [((q, simple_query_classifier q), r)]) /\
    (LRUCache.contains (q, simple_query_classifier q) cache = false ->
     r = fresh_result w q) /\
    (forall stored,
       LRUCache.get (q, simple_query_classifier q) cache = Some stored ->
       r = set_cached true stored).
Proof.
  destruct (LRUCache.contains (q, simple_query_classifier q) cache) eqn:Hc.
  - destruct (process_query_hit w q cache Hc) as (stored & Hget & ->).
    eexists _, _. split; [reflexivity|]. split; [discriminate|].
    intros stored' Hget'. congruence.
  - rewrite (process_query_miss w q cache Hc).
    eexists _, _. split; [reflexivity|]. split; [reflexivity|].
    intros stored Hget. apply lru_contains_false in Hc.
    rewrite lru_get_None in Hget by exact Hc. discriminate.
Qed.

(** C1. Whatever the cache holds and whatever the stores answer, a first
    call of [process_query] on [q] returns, and a second call on the same
    [q] right after it returns the first result with the flag [cached]
    set: the same query, route and payload, marked as a cache hit; when
    the first call was a miss, its payload is the one it computed and it is
    not marked as a hit.  The same holds for a second call that comes after
    other queries, as long as they are fewer than the capacity of the
    cache (so that the entry cannot have been evicted), on a cache with
    distinct keys within its capacity. *)
Theorem process_query_cache_round_trip (w1 w2 : world) (q : string)
    (cache : LRUCache.t cache_key query_result) :
  (exists (r1 r2 : query_result)
          (cache1 cache2 : LRUCache.t cache_key query_result),
     process_query w1 q cache = inr (r1, cache1) /\
     process_query w2 q cache1 = inr (r2, cache2) /\
     qr_cached r2 = true /\
     qr_results r2 = qr_results r1 /\
     r2 = set_cached true r1 /\
     (LRUCache.contains (q, simple_query_classifier q) cache = false ->
      r1 = fresh_result w1 q)) /\
  (forall calls : list (world * string),
     NoDup (LRUCache.keys cache) ->
     LRUCache.currsize cache <= QUERY_CACHE_maxsize ->
     length calls < QUERY_CACHE_maxsize ->
     exists (r1 r2 : query_result)
            (cache1 cache2 cache3 : LRUCache.t cache_key query_result),
       process_query w1 q cache = inr (r1, cache1) /\
       run_queries calls cache1 = inr cache2 /\
       process_query w2 q cache2 = inr (r2, cache3) /\
       qr_cached r2 = true /\
       qr_results r2 = qr_results r1).
Proof.
  set (k := (q, simple_query_classifier q)).
  destruct (process_query_stores w1 q cache) as (r1 & pre & Hrun1 & Hmiss & _).
  fold k in Hrun1, Hmiss. split.
  - assert (Hc1 : LRUCache.contains k (pre ++ [(k, r1)]) = true).
    { apply lru_contains_true. rewrite lru_keys_app, elem_of_app.
      right. unfold LRUCache.keys. cbn. left. }
    destruct (process_query_hit w2 q _ Hc1) as (stored & Hget & Hrun2).
    fold k in Hget, Hrun2.
    exists r1, (set_cached true stored). eexists _, _.
    split; [exact Hrun1|]. split; [exact Hrun2|].
    assert (stored = r1) as ->; [|repeat split; assumption].
    destruct (LRUCache.contains k cache) eqn:Hc.
    + destruct (process_query_hit w1 q cache Hc) as (s0 & _ & Hrun1').
      fold k in Hrun1'. rewrite Hrun1' in Hrun1.
      injection Hrun1 as Hr Hcache. rewrite <- Hcache, lru_get_moved in Hget.
      congruence.
    + rewrite (process_query_miss w1 q cache Hc) in Hrun1. fold k in Hrun1.
      injection Hrun1 as Hr Hcache. rewrite <- Hcache in Hget.
      apply lru_contains_false in Hc.
      rewrite lru_get_appended in Hget; [congruence|].
      intros Hin. apply Hc. now apply lru_evict_keys in Hin.
  - intros calls Hnd Hlen Hcalls.
    destruct (process_query_keeps_bound _ _ _ _ _ Hrun1 Hlen Hnd)
      as [Hlen1 Hnd1].
    destruct (run_queries_keeps_entry calls k r1 pre [] Hnd1 Hlen1
                ltac:(cbn; lia))
      as (v' & pre' & post' & Hrun & Hnd' & Hres).
    assert (Hpre' : k ∉ LRUCache.keys pre').
    { rewrite lru_keys_app in Hnd'. apply NoDup_app in Hnd' as (_ & Hdis & _).
      intros Hin. apply (Hdis k Hin). unfold LRUCache.keys. cbn. left. }
    assert (Hc2 : LRUCache.contains k (pre' ++ (k, v') :: post') = true).
    { apply lru_contains_true. rewrite lru_keys_app, elem_of_app.
      right. unfold LRUCache.keys. cbn. left. }
    destruct (process_query_hit w2 q _ Hc2) as (stored & Hget & Hrun2).
    fold k in Hget, Hrun2.
    rewrite lru_get_app, (lru_get_None k pre' Hpre') in Hget.
    cbn in Hget. rewrite decide_True in Hget by reflexivity.
    injection Hget as <-.
    exists r1, (set_cached true v'). eexists _, _, _.
    split; [exact Hrun1|]. split; [exact Hrun|]. split; [exact Hrun2|].
    split; [reflexivity|exact Hres].
Qed.

Lemma process_query_cache_round_trip_witness :
  exists (r1 r2 : query_result)
         (cache1 cache2 cache3 : LRUCache.t cache_key query_result),
    process_query failing_world "top 3 highest paid employees" LRUCache.empty
      = inr (r1, cache1) /\
    run_queries [(failing_world, "Find resumes with Python skill");
                 (failing_world, "hello")] cache1 = inr cache2 /\
    process_query failing_world "top 3 highest paid employees" cache2
      = inr (r2, cache3) /\
    qr_cached r2 = true /\
    qr_results r2 = qr_results r1.
Proof.
  destruct (process_query_cache_round_trip failing_world failing_world
              "top 3 highest paid employees" LRUCache.empty) as [_ H].
  apply (H [(failing_world, "Find resumes with Python skill");
            (failing_world, "hello")]).
  - constructor.
  - cbn. unfold QUERY_CACHE_maxsize. lia.
  - cbn. unfold QUERY_CACHE_maxsize. lia.
Defined.

(** C8. The result cache never holds more entries than its capacity: after
    any sequence of queries, starting from the empty cache, it holds at
    most [QUERY_CACHE_maxsize] of them.  For the cache operations at any
    capacity of at least one: a write to a cache within its capacity
    succeeds and stays within it, and a read does not grow it; a write of a
    new key to a full cache removes exactly the least recently used entry
    (the first of the list) and adds the new one as the most recent; below
    capacity nothing is removed; a read of a present key moves that key to
    the most recent end and leaves the other entries in their order; with
    a capacity of at least two, a key read just before an overflowing write
    is still there after it; and writing capacity plus one distinct keys
    to an empty cache loses exactly the first, or, when the first is read
    before the last write, exactly the second. *)
Theorem lru_cache_bounded_evicts_least_recent :
  (forall calls : list (world * string),
     exists cache,
       run_queries calls LRUCache.empty = inr cache /\
       LRUCache.currsize cache <= QUERY_CACHE_maxsize) /\
  forall (K V : Type) (EqK : EqDecision K) (maxsize : nat),
    1 <= maxsize ->
    (forall (c : list (K * V)) k v,
       LRUCache.currsize c <= maxsize ->
       exists c', LRUCache.setitem maxsize k v c = inr c' /\
                  LRUCache.currsize c' <= maxsize /\
                  LRUCache.get k c' = Some v) /\
    (forall (c c' : list (K * V)) k v,
       LRUCache.getitem k c = inr (v, c') ->
       LRUCache.currsize c' <= LRUCache.currsize c) /\
    (forall (c : list (K * V)) k v,
       LRUCache.currsize c = maxsize -> k ∉ LRUCache.keys c ->
       LRUCache.setitem maxsize k v c = inr (tail c ++ [(k, v)])) /\
    (forall (c : list (K * V)) k v,
       LRUCache.currsize c < maxsize -> k ∉ LRUCache.keys c ->
       LRUCache.setitem maxsize k v c = inr (c ++ [(k, v)])) /\
    (forall (c : list (K * V)) k,
       k ∈ LRUCache.keys c ->
       exists v, LRUCache.get k c = Some v /\
                 LRUCache.getitem k c
                   = inr (v, LRUCache.remove k c ++ [(k, v)])) /\
    (2 <= maxsize ->
     forall (c c1 : list (K * V)) k v k' v',
       NoDup (LRUCache.keys c) -> LRUCache.currsize c = maxsize ->
       LRUCache.getitem k c = inr (v, c1) -> k' ∉ LRUCache.keys c ->
       exists c2, LRUCache.setitem maxsize k' v' c1 = inr c2 /\
                  LRUCache.get k c2 = Some v /\
                  LRUCache.currsize c2 = maxsize) /\
    (forall (kvs : list (K * V)) k v,
       NoDup (LRUCache.keys (kvs ++ [(k, v)])) -> length kvs = maxsize ->
       LRUCache.put_all maxsize (kvs ++ [(k, v)]) LRUCache.empty
         = inr (tail kvs ++ [(k, v)])) /\
    (2 <= maxsize ->
     forall k0 v0 (rest : list (K * V)) k v,
       NoDup (LRUCache.keys ((k0, v0) :: rest ++ [(k, v)])) ->
       length ((k0, v0) :: rest) = maxsize ->
       (call c <~ LRUCache.put_all maxsize ((k0, v0) :: rest) LRUCache.empty in
        call read <~ LRUCache.getitem k0 c in
        LRUCache.setitem maxsize k v read.2)
       = inr (tail rest ++ [(k0, v0); (k, v)])).
Proof.
  split.
  - intros calls.
    destruct (run_queries_bounded calls [])
      as (cache & Hrun & Hlen & _); [cbn; lia|constructor|].
    exists cache. split; assumption.
  - intros K V EqK maxsize Hm. repeat split.
    + intros c k v Hlen.
      destruct (lru_setitem_bounded maxsize k v c Hm Hlen)
        as (c' & Hset & Hlen' & Hget & _).
      exists c'. repeat split; assumption.
    + intros c c' k v (_ & -> & Hin)%lru_getitem_inv.
      unfold LRUCache.currsize. rewrite length_app. cbn [length].
      apply lru_remove_length_in, Hin.
    + intros c k v Hlen Hk. rewrite lru_setitem_new by assumption.
      now rewrite lru_evict_full.
    + intros c k v Hlen Hk. rewrite lru_setitem_new by assumption.
      rewrite lru_evict_fits; [reflexivity|].
      unfold LRUCache.currsize in Hlen. lia.
    + intros c k Hin. now apply lru_getitem_present.
    + intros Hm2 c c1 k v k' v' Hnd Hlen Hread Hk'.
      destruct (lru_read_protects maxsize k v k' v' c c1 Hm2 Hnd Hlen Hread Hk')
        as (Hset & Hget & Hsize).
      eexists. repeat split; eassumption.
    + intros kvs k v Hnd Hlen. now apply lru_overflow_evicts_first.
    + intros Hm2 k0 v0 rest k v Hnd Hlen. now apply lru_overflow_after_read.
Qed.

Lemma lru_cache_bounded_evicts_least_recent_witness :
  LRUCache.put_all 2 [(1, "a"); (2, "b"); (3, "c")] LRUCache.empty
    = inr [(2, "b"); (3, "c")] /\
  (call c <~ LRUCache.put_all 2 [(1, "a"); (2, "b")] LRUCache.empty in
   call read <~ LRUCache.getitem 1 c in
   LRUCache.setitem 2 3 "c" read.2)
    = inr [(1, "a"); (3, "c")].
Proof.
  destruct lru_cache_bounded_evicts_least_recent as [_ H].
  destruct (H nat string _ 2 ltac:(lia)) as (_ & _ & _ & _ & _ & _ & H1 & H2).
  split.
  - apply (H1 [(1, "a"); (2, "b")] 3 "c"); [|reflexivity].
    by_evaluation.
  - apply (H2 ltac:(lia) 1 "a" [(2, "b")] 3 "c"); [|reflexivity].
    by_evaluation.
Defined.

(** ** Ranked search *)

Lemma insert_desc_perm (g : string * nat) (l : list (string * nat)) :
  insert_desc g l ≡ₚ g :: l.
Proof.
  induction l as [|h t IH]; [reflexivity|]. cbn [insert_desc].
  destruct (g.2 <? h.2)%nat; [|reflexivity].
  rewrite IH. apply Permutation_swap.
Qed.

Lemma order_by_count_desc_perm (l : list (string * nat)) :
  order_by_count_desc l ≡ₚ l.
Proof.
  induction l as [|g l IH]; [reflexivity|].
  cbn [order_by_count_desc foldr]. rewrite insert_desc_perm.
  now apply Permutation_cons.
Qed.





(** Groups: one row per document id of the matching rows, with the number
    of matching rows of that id. *)
Lemma elem_of_group_count (rows : list (string * string)) id n :
  (id, n) ∈ group_count rows <->
  id ∈ rows.*2 /\ n = length (filter (fun r => r.2 = id) rows).
Proof.
  unfold group_count. rewrite list_elem_of_fmap. split.
  - intros (id' & [= -> ->] & Hin).
    split; [now rewrite elem_of_remove_dups in Hin|reflexivity].
  - intros [Hin ->]. exists id. split; [reflexivity|].
    now rewrite elem_of_remove_dups.
Qed.

Lemma group_count_ids (rows : list (string * string)) :
  (group_count rows).*1 = remove_dups (rows.*2).
Proof.
  unfold group_count. rewrite <- list_fmap_compose.
  now rewrite list_fmap_id.
Qed.

Lemma group_count_positive (rows : list (string * string)) id n :
  (id, n) ∈ group_count rows -> 1 <= n.
Proof.
  intros [Hin ->]%elem_of_group_count.
  apply list_elem_of_fmap in Hin as ([t id'] & -> & Hin).
  assert (Hf : (t, id') ∈ filter (fun r : string * string => r.2 = (t, id').2) rows)
    by (apply list_elem_of_filter; auto).
  destruct (filter _ rows); [now apply elem_of_nil in Hf|cbn; lia].
Qed.

(** What the invariant of the store says about the index. *)
Lemma elem_of_index_rows (d : document) term id :
  (term, id) ∈ index_rows d <-> id = doc_id d /\ term ∈ tokenize (content d).
Proof.
  unfold index_rows, set_of. rewrite list_elem_of_fmap. split.
  - intros (t & [= -> ->] & Hin). now rewrite elem_of_remove_dups in Hin.
  - intros [-> Hin]. exists term. now rewrite elem_of_remove_dups.
Qed.

Lemma index_rows_NoDup (d : document) : NoDup (index_rows d).
Proof.
  unfold index_rows, set_of. apply NoDup_fmap_2_strong.
  - now intros t1 t2 _ _ [= ->].
  - apply NoDup_remove_dups.
Qed.

Lemma store_ok_elem_of (db : doc_store) term id :
  store_ok db ->
  (term, id) ∈ doc_index db <->
  exists d, d ∈ documents db /\ doc_id d = id /\ term ∈ tokenize (content d).
Proof.
  intros [_ Hperm]. rewrite Hperm, list_elem_of_bind. split.
  - intros (d & [-> Hin]%elem_of_index_rows & Hd). eauto.
  - intros (d & Hd & <- & Hin). exists d. split; [|exact Hd].
    now apply elem_of_index_rows.
Qed.

Lemma same_id_same_document (docs : list document) (d1 d2 : document) :
  NoDup (doc_id <$> docs) -> d1 ∈ docs -> d2 ∈ docs ->
  doc_id d1 = doc_id d2 -> d1 = d2.
Proof.
  induction docs as [|d docs IH]; [intros _ Hin; now apply elem_of_nil in Hin|].
  rewrite fmap_cons. intros [Hn Hnd]%NoDup_cons Hin1 Hin2 Heq.
  apply elem_of_cons in Hin1 as [->|Hin1];
    apply elem_of_cons in Hin2 as [->|Hin2]; auto.
  - exfalso. apply Hn. rewrite Heq. apply list_elem_of_fmap. eauto.
  - exfalso. apply Hn. rewrite <- Heq. apply list_elem_of_fmap. eauto.
Qed.

Lemma store_ok_index_NoDup (db : doc_store) :
  store_ok db -> NoDup (doc_index db).
Proof.
  intros [Hnd Hperm]. rewrite Hperm. apply NoDup_bind; [|auto using index_rows_NoDup|].
  - intros d1 d2 [term id] Hd1 Hd2 [-> _]%elem_of_index_rows
           [Heq _]%elem_of_index_rows.
    now apply (same_id_same_document (documents db)).
  - now apply NoDup_fmap_1 in Hnd.
Qed.

Lemma fetch_document_Some (db : doc_store) (d : document) :
  NoDup (doc_id <$> documents db) -> d ∈ documents db ->
  fetch_document db (doc_id d) = Some d.
Proof.
  unfold fetch_document. induction (documents db) as [|d' docs IH].
  - intros _ Hin. now apply elem_of_nil in Hin.
  - rewrite fmap_cons. intros [Hn Hnd]%NoDup_cons Hin. cbn [List.find].
    destruct (String.eqb_spec (doc_id d') (doc_id d)) as [Heq|Hne].
    + apply elem_of_cons in Hin as [->|Hin]; [reflexivity|].
      exfalso. apply Hn. rewrite Heq. apply list_elem_of_fmap. eauto.
    + apply elem_of_cons in Hin as [->|Hin]; [congruence|]. now apply IH.
Qed.

Lemma fetch_document_inv (db : doc_store) (d : document) id :
  fetch_document db id = Some d -> d ∈ documents db /\ doc_id d = id.
Proof.
  unfold fetch_document. intros Hf. apply find_some in Hf as [Hin Heq].
  split; [now apply list_elem_of_In|now apply String.eqb_eq].
Qed.

(** The count of a group is the number of distinct query terms that occur in
    its document. *)
Lemma group_size_is_overlap (db : doc_store) (terms : list string)
    (d : document) :
  store_ok db -> NoDup terms -> d ∈ documents db ->
  length (filter (fun r : string * string => r.2 = doc_id d)
                 (matching_rows terms (doc_index db)))
  = overlap terms d.
Proof.
  intros Hok Hterms Hd. unfold overlap, matching_rows.
  set (group := filter (fun r : string * string => r.2 = doc_id d)
                  (filter (fun r : string * string => r.1 ∈ terms) (doc_index db))).
  rewrite <- (length_fmap fst group). apply Permutation_length.
  assert (Hgroup : NoDup group)
    by (apply NoDup_filter, NoDup_filter, store_ok_index_NoDup, Hok).
  apply NoDup_Permutation.
  - apply NoDup_fmap_2_strong; [|exact Hgroup].
    intros [t1 i1] [t2 i2] [Hi1 _]%list_elem_of_filter [Hi2 _]%list_elem_of_filter.
    cbn in *. congruence.
  - now apply NoDup_filter.
  - intros term. rewrite list_elem_of_fmap, list_elem_of_filter. split.
    + intros ([t id] & -> & [Hid [Hin Hidx]%list_elem_of_filter]%list_elem_of_filter).
      cbn in *. subst id. split; [|exact Hin].
      apply (store_ok_elem_of db t (doc_id d) Hok) in Hidx
        as (d' & Hd' & Heq & Htok).
      destruct Hok as [Hnd _].
      now rewrite <- (same_id_same_document _ d' d Hnd Hd' Hd Heq).
    + intros [Htok Hin]. exists (term, doc_id d). split; [reflexivity|].
      apply list_elem_of_filter. split; [reflexivity|].
      apply list_elem_of_filter. split; [exact Hin|].
      apply (store_ok_elem_of db term (doc_id d) Hok). eauto.
Qed.

(** The empty store satisfies the invariant. *)
Lemma store_ok_empty : store_ok empty_store.
Proof. split; [constructor|reflexivity]. Qed.

Section OmapFacts.
Context {A B : Type}.
Implicit Types (f : A -> option B) (l : list A).





End OmapFacts.

(** The groups of a query, under the invariant of the store. *)
Lemma group_describes_document (db : doc_store) (terms : list string) id n :
  store_ok db -> NoDup terms ->
  (id, n) ∈ group_count (matching_rows terms (doc_index db)) ->
  exists d, d ∈ documents db /\ doc_id d = id /\ n = overlap terms d /\
            1 <= n /\
            result_row db (id, n) =
              Some {| hit_doc_id := id; hit_doc_name := doc_name d;
                      snippet := make_snippet (content d); score := n |}.
Proof.
  intros Hok Hterms Hin.
  pose proof (group_count_positive _ _ _ Hin) as Hpos.
  apply elem_of_group_count in Hin as [Hid ->].
  apply list_elem_of_fmap in Hid as ([term id'] & -> & Hrow).
  apply list_elem_of_filter in Hrow as [_ Hidx]. cbn [snd] in *.
  apply (store_ok_elem_of db term id' Hok) in Hidx as (d & Hd & <- & _).
  exists d. split; [exact Hd|]. split; [reflexivity|].
  split; [now apply group_size_is_overlap|]. split; [exact Hpos|].
  unfold result_row. cbn [fst snd].
  destruct Hok as [Hnd _]. now rewrite (fetch_document_Some db d Hnd Hd).
Qed.

Lemma document_has_group (db : doc_store) (terms : list string) (d : document) :
  store_ok db -> NoDup terms -> d ∈ documents db -> 1 <= overlap terms d ->
  (doc_id d, overlap terms d)
    ∈ group_count (matching_rows terms (doc_index db)).
Proof.
  intros Hok Hterms Hd Hpos. apply elem_of_group_count.
  split; [|symmetry; now apply group_size_is_overlap].
  unfold overlap in Hpos.
  destruct (filter (fun term => term ∈ tokenize (content d)) terms)
    as [|term rest] eqn:Hf; [cbn in Hpos; lia|].
  assert (Hterm : term ∈ filter (fun term => term ∈ tokenize (content d)) terms)
    by (rewrite Hf; left).
  apply list_elem_of_filter in Hterm as [Htok Hin].
  apply list_elem_of_fmap. exists (term, doc_id d). split; [reflexivity|].
  apply list_elem_of_filter. split; [exact Hin|].
  apply (store_ok_elem_of db term (doc_id d) Hok). eauto.
Qed.



(** ** Tokens *)

Lemma append_String (c : ascii) (s t : string) :
  String.append (String c s) t = String c (String.append s t).
Proof. reflexivity. Qed.

Lemma append_empty (s : string) : String.append EmptyString s = s.
Proof. reflexivity. Qed.

Lemma append_snoc (r t : string) (c : ascii) :
  String.append (String.append r (String c EmptyString)) t
  = String.append r (String c t).
Proof.
  induction r as [|a r IH]; [reflexivity|].
  now rewrite !append_String, IH.
Qed.

Lemma all_chars_snoc (p : ascii -> bool) (r : string) (c : ascii) :
  Text.all_chars p (String.append r (String c EmptyString))
  = Text.all_chars p r && p c.
Proof.
  induction r as [|a r IH].
  - rewrite append_empty. cbn. now destruct (p c).
  - rewrite append_String. cbn [Text.all_chars]. now rewrite IH, andb_assoc.
Qed.

Lemma snoc_not_empty (r : string) (c : ascii) :
  String.append r (String c EmptyString) <> EmptyString.
Proof. destruct r; discriminate. Qed.

Lemma lower_char_idempotent (c : ascii) :
  Text.lower_char (Text.lower_char c) = Text.lower_char c.
Proof. destruct c as [[] [] [] [] [] [] [] []]; reflexivity. Qed.

(** Every string the scan returns is a run of class characters. *)
Lemma findall_runs_tokens (s : string) (run : option string) :
  Text.all_chars (fun c => Ascii.eqb (Text.lower_char c) c) s = true ->
  (forall r, run = Some r -> is_token r) ->
  forall t, t ∈ findall_runs run s -> is_token t.
Proof.
  revert run. induction s as [|c s IH]; intros run Hs Hrun t Ht.
  - cbn in Ht. destruct run as [r|]; [|now apply elem_of_nil in Ht].
    apply list_elem_of_singleton in Ht as ->. now apply Hrun.
  - cbn [Text.all_chars] in Hs. apply andb_true_iff in Hs as [Hc Hs].
    cbn [findall_runs] in Ht. destruct (token_char c) eqn:Htc.
    + apply (IH _ Hs) in Ht; [exact Ht|].
      intros r' [= <-]. destruct run as [r|].
      * destruct (Hrun r eq_refl) as [_ Hall]. split; [apply snoc_not_empty|].
        rewrite all_chars_snoc, Hall. unfold lowered_token_char.
        now rewrite Htc, Hc.
      * split; [discriminate|]. cbn. unfold lowered_token_char.
        now rewrite Htc, Hc.
    + destruct run as [r|].
      * apply elem_of_cons in Ht as [->|Ht]; [now apply Hrun|].
        apply (IH None Hs) in Ht; [exact Ht|discriminate].
      * apply (IH None Hs) in Ht; [exact Ht|discriminate].
Qed.

Lemma lower_is_lowered (s : string) :
  Text.all_chars (fun c => Ascii.eqb (Text.lower_char c) c) (Text.lower s) = true.
Proof.
  induction s as [|c s IH]; [reflexivity|]. cbn.
  rewrite IH, lower_char_idempotent. now rewrite Ascii.eqb_refl.
Qed.

Lemma tokenize_tokens (text t : string) : t ∈ tokenize text -> is_token t.
Proof.
  unfold tokenize. apply findall_runs_tokens; [apply lower_is_lowered|discriminate].
Qed.

Lemma lower_token (t : string) :
  Text.all_chars lowered_token_char t = true -> Text.lower t = t.
Proof.
  induction t as [|c t IH]; [reflexivity|]. cbn.
  unfold lowered_token_char at 1.
  intros [[_ Hc]%andb_true_iff Ht]%andb_true_iff.
  apply Ascii.eqb_eq in Hc. now rewrite Hc, IH.
Qed.

Lemma findall_runs_run (t r : string) :
  Text.all_chars lowered_token_char t = true ->
  findall_runs (Some r) t = [String.append r t].
Proof.
  revert r. induction t as [|c t IH]; intros r.
  - intros _. cbn. f_equal. induction r as [|a r IHr]; [reflexivity|].
    now rewrite append_String, <- IHr.
  - cbn [Text.all_chars findall_runs]. unfold lowered_token_char at 1.
    intros [[-> _]%andb_true_iff Ht]%andb_true_iff.
    rewrite IH by exact Ht. now rewrite append_snoc.
Qed.

(** A token is the only token of itself. *)
Lemma tokenize_token (t : string) : is_token t -> tokenize t = [t].
Proof.
  intros [Hne Hall]. unfold tokenize. rewrite lower_token by exact Hall.
  destruct t as [|c t]; [contradiction|].
  cbn [Text.all_chars] in Hall. unfold lowered_token_char at 1 in Hall.
  apply andb_true_iff in Hall as [[Htc _]%andb_true_iff Ht].
  cbn [findall_runs]. rewrite Htc. now rewrite findall_runs_run.
Qed.

(** ** Ingestion *)

Lemma ingest_file_inv (env : ingest_env) (i : nat) (job_id : string)
    (file : UploadFile) (st st' : ingest_state) :
  ingest_file env i job_id file st = inr st' ->
  (doc_id (new_document env i file) ∉ doc_id <$> documents (store st)) /\
  exists j,
    INGEST_STATUS st !! job_id = Some j /\
    st' = {| INGEST_STATUS :=
               <[job_id := {| total := total j; processed := processed j + 1;
                              done := done j |}]> (INGEST_STATUS st);
             store :=
               {| documents := documents (store st) ++ [new_document env i file];
                  doc_index := doc_index (store st)
                                 ++ index_rows (new_document env i file) |} |}.
Proof.
  unfold ingest_file. case_bool_decide as Hid; [discriminate|].
  destruct (INGEST_STATUS st !! job_id) as [j|] eqn:Hj; [|discriminate].
  intros [= <-]. split; [exact Hid|]. now exists j.
Qed.

Lemma ingest_file_fresh (env : ingest_env) (i : nat) (job_id : string)
    (file : UploadFile) (st : ingest_state) (j : job) :
  doc_id (new_document env i file) ∉ doc_id <$> documents (store st) ->
  INGEST_STATUS st !! job_id = Some j ->
  exists st', ingest_file env i job_id file st = inr st'.
Proof.
  intros Hid Hj. unfold ingest_file. rewrite bool_decide_eq_false_2 by exact Hid.
  rewrite Hj. eauto.
Qed.

(** Storing one more document with a new id keeps the invariant. *)
Lemma store_ok_snoc (db : doc_store) (d : document) :
  store_ok db -> doc_id d ∉ doc_id <$> documents db ->
  store_ok {| documents := documents db ++ [d];
              doc_index := doc_index db ++ index_rows d |}.
Proof.
  intros [Hnd Hperm] Hid. split; cbn [documents doc_index].
  - rewrite fmap_app. apply NoDup_app. split; [exact Hnd|].
    split; [|apply NoDup_singleton].
    intros id Hin ->%list_elem_of_singleton. contradiction.
  - rewrite bind_app, Hperm. cbn. now rewrite app_nil_r.
Qed.

(** What a run of the loop that returns has done. *)
Lemma ingest_loop_inv (env : ingest_env) (job_id : string)
    (files : list UploadFile) (i : nat) (st st' : ingest_state) :
  ingest_loop env i job_id files st = inr st' ->
  documents (store st')
    = documents (store st) ++ new_documents env i files /\
  doc_index (store st')
    = doc_index (store st) ++ (new_documents env i files ≫= index_rows) /\
  (store_ok (store st) -> store_ok (store st')) /\
  (forall j, INGEST_STATUS st !! job_id = Some j ->
             INGEST_STATUS st' !! job_id
               = Some {| total := total j;
                         processed := processed j + length files;
                         done := done j |}).
Proof.
  revert i st. induction files as [|file files IH]; intros i st Hrun.
  - cbn in Hrun. injection Hrun as <-. cbn. rewrite !app_nil_r.
    split; [reflexivity|]. split; [reflexivity|]. split; [auto|].
    intros [tot pr dn] Hj. cbn. now rewrite Nat.add_0_r.
  - cbn [ingest_loop] in Hrun.
    destruct (ingest_file env i job_id file st) as [e|st1] eqn:Hfile;
      [discriminate|]. cbn [bind] in Hrun.
    apply ingest_file_inv in Hfile as (Hid & j0 & Hj0 & ->).
    apply IH in Hrun as (Hdocs & Hidx & Hok & Hjob). cbn in Hdocs, Hidx, Hok, Hjob.
    cbn [new_documents]. split; [now rewrite Hdocs, <- app_assoc|].
    split; [rewrite Hidx, <- app_assoc; cbn; reflexivity|].
    split.
    + intros Hst. apply Hok. now apply store_ok_snoc.
    + intros j Hj. rewrite Hj in Hj0. injection Hj0 as <-.
      rewrite (Hjob _ (lookup_insert_eq _ _ _)). cbn. do 2 f_equal. lia.
Qed.

Lemma new_documents_lookup (env : ingest_env) (files : list UploadFile)
    (i k : nat) (file : UploadFile) :
  files !! k = Some file ->
  new_documents env i files !! k = Some (new_document env (i + k) file).
Proof.
  revert i k. induction files as [|f files IH]; intros i k; [discriminate|].
  destruct k as [|k]; cbn.
  - intros [= ->]. now rewrite Nat.add_0_r.
  - intros Hk. replace (i + S k) with (S i + k) by lia. now apply IH.
Qed.

Lemma process_documents_inv (env : ingest_env) (files : list UploadFile)
    (job_id : string) (st st' : ingest_state) :
  process_documents env files job_id st = inr st' ->
  documents (store st')
    = documents (store st) ++ new_documents env 0 files /\
  doc_index (store st')
    = doc_index (store st) ++ (new_documents env 0 files ≫= index_rows) /\
  (store_ok (store st) -> store_ok (store st')) /\
  INGEST_STATUS st' !! job_id
    = Some {| total := length files; processed := length files; done := true |}.
Proof.
  unfold process_documents.
  destruct (ingest_loop env 0 job_id files (start_job files job_id st))
    as [e|st1] eqn:Hloop; [discriminate|]. cbn [bind].
  apply ingest_loop_inv in Hloop as (Hdocs & Hidx & Hok & Hjob).
  specialize (Hjob _ (lookup_insert_eq _ _ _)). cbn in Hdocs, Hidx, Hok, Hjob.
  unfold finish_job. rewrite Hjob. intros [= <-].
  cbn [store INGEST_STATUS total processed done].
  split; [exact Hdocs|]. split; [exact Hidx|]. split; [exact Hok|].
  rewrite lookup_insert_eq. do 2 f_equal.
Qed.

Lemma ingest_loop_returns (env : ingest_env) (job_id : string)
    (files : list UploadFile) (i : nat) (st : ingest_state) :
  NoDup ((uuid4 env <$> seq i (length files)) ++ (doc_id <$> documents (store st))) ->
  is_Some (INGEST_STATUS st !! job_id) ->
  exists st', ingest_loop env i job_id files st = inr st'.
Proof.
  revert i st. induction files as [|file files IH]; intros i st Hfresh [j Hj].
  - cbn. eauto.
  - cbn [length seq fmap list_fmap app] in Hfresh.
    apply NoDup_cons in Hfresh as [Hid Hfresh].
    assert (Hnew : doc_id (new_document env i file)
                     ∉ doc_id <$> documents (store st)).
    { intros Hin. apply Hid. apply elem_of_app. now right. }
    destruct (ingest_file_fresh env i job_id file st j Hnew Hj) as [st1 Hfile].
    cbn [ingest_loop]. rewrite Hfile. cbn [bind].
    apply ingest_file_inv in Hfile as (_ & j0 & Hj0 & ->).
    apply IH; cbn.
    + rewrite fmap_app. cbn.
      apply NoDup_app in Hfresh as (Hn1 & Hdis & Hn2).
      apply NoDup_app. split; [exact Hn1|]. split.
      * intros id Hin [Hold| ->%list_elem_of_singleton]%elem_of_app.
        -- now apply (Hdis id).
        -- apply Hid. apply elem_of_app. now left.
      * apply NoDup_app. split; [exact Hn2|]. split; [|apply NoDup_singleton].
        intros id Hin ->%list_elem_of_singleton. contradiction.
    + rewrite lookup_insert_eq. eauto.
Qed.

Lemma process_documents_returns (env : ingest_env) (files : list UploadFile)
    (job_id : string) (st : ingest_state) :
  fresh_ids env (length files) (store st) ->
  exists st', process_documents env files job_id st = inr st'.
Proof.
  intros Hfresh. unfold process_documents.
  destruct (ingest_loop_returns env job_id files 0 (start_job files job_id st))
    as [st1 Hloop]; [exact Hfresh|cbn; rewrite lookup_insert_eq; eauto|].
  rewrite Hloop. cbn [bind].
  apply ingest_loop_inv in Hloop as (_ & _ & _ & Hjob).
  specialize (Hjob _ (lookup_insert_eq _ _ _)).
  unfold finish_job. rewrite Hjob. eauto.
Qed.

(** With a limit of at least the number of stored documents, every document
    that holds a query term is among the hits. *)
Lemma search_finds_document (db : doc_store) (query : string) (top_k : nat)
    (d : document) :
  store_ok db -> d ∈ documents db ->
  1 <= overlap (set_of (tokenize query)) d ->
  length (documents db) <= top_k ->
  {| hit_doc_id := doc_id d; hit_doc_name := doc_name d;
     snippet := make_snippet (content d);
     score := overlap (set_of (tokenize query)) d |}
    ∈ search_documents db query top_k.
Proof.
  intros Hok Hd Hov Hk. unfold search_documents.
  set (terms := set_of (tokenize query)) in *.
  assert (Hterms : NoDup terms) by apply NoDup_remove_dups.
  clearbody terms.
  destruct terms as [|t ts] eqn:Ht; [unfold overlap in Hov; cbn in Hov; lia|].
  rewrite <- Ht in *. clear Ht t ts.
  set (groups := group_count (matching_rows terms (doc_index db))).
  assert (Hlen : length (order_by_count_desc groups) <= top_k).
  { rewrite (Permutation_length (order_by_count_desc_perm groups)).
    rewrite <- (length_fmap fst groups). etrans; [|exact Hk].
    rewrite <- (length_fmap doc_id (documents db)).
    apply submseteq_length, NoDup_submseteq.
    - unfold groups. rewrite group_count_ids. apply NoDup_remove_dups.
    - intros id ([id' n] & -> & Hin)%list_elem_of_fmap.
      destruct (group_describes_document db terms id' n Hok Hterms Hin)
        as (d' & Hd' & <- & _).
      apply list_elem_of_fmap. eauto. }
  rewrite take_ge by exact Hlen.
  pose proof (document_has_group db terms d Hok Hterms Hd Hov) as Hgroup.
  fold groups in Hgroup.
  apply list_elem_of_omap. exists (doc_id d, overlap terms d). split.
  - now rewrite order_by_count_desc_perm.
  - unfold result_row. cbn [fst snd].
    destruct Hok as [Hnd _]. now rewrite (fetch_document_Some db d Hnd Hd).
Qed.

Lemma overlap_single (term : string) (d : document) :
  term ∈ tokenize (content d) ->
  set_of (tokenize term) = [term] /\ overlap [term] d = 1.
Proof.
  intros Hin. split.
  - rewrite (tokenize_token term) by (eapply tokenize_tokens; eauto).
    reflexivity.
  - unfold overlap. now rewrite filter_cons_True, filter_nil by exact Hin.
Qed.

(** C5. When a batch has been ingested, every one of its files has its
    document stored under the identifier drawn for it, with the file name
    and the extracted text, and every term of that text has the index row
    (term, identifier).  On a store that satisfied the invariant before,
    a search for any one of these terms, with a limit of at least the
    number of stored documents, returns the document with score 1.  A
    batch whose identifiers are new is ingested to the end.  A file with
    the content [Python Engineer NY], ingested into the empty store, is
    the hit of the query [engineer] with the limit of 5 the engine uses. *)
Theorem ingestion_indexes_every_term :
  (forall (env : ingest_env) (files : list UploadFile) (job_id : string)
          (st st' : ingest_state),
     process_documents env files job_id st = inr st' ->
     forall (i : nat) (file : UploadFile),
       files !! i = Some file ->
       new_document env i file ∈ documents (store st') /\
       doc_id (new_document env i file) = uuid4 env i /\
       content (new_document env i file) = file_content env file /\
       (forall term,
          term ∈ tokenize (file_content env file) ->
          (term, uuid4 env i) ∈ doc_index (store st')) /\
       (store_ok (store st) ->
        forall term top_k,
          term ∈ tokenize (file_content env file) ->
          length (documents (store st')) <= top_k ->
          {| hit_doc_id := uuid4 env i; hit_doc_name := filename file;
             snippet := make_snippet (file_content env file); score := 1 |}
            ∈ search_documents (store st') term top_k)) /\
  (forall (env : ingest_env) (files : list UploadFile) (job_id : string)
          (st : ingest_state),
     fresh_ids env (length files) (store st) ->
     exists st', process_documents env files job_id st = inr st') /\
  (exists st',
     process_documents sample_env
       [{| filename := "resume.txt"; contents := "Python Engineer NY" |}]
       "job-1" initial_state = inr st' /\
     search_documents (store st') "engineer" 5 =
       [{| hit_doc_id := "0"; hit_doc_name := "resume.txt";
           snippet := "Python Engineer NY"; score := 1 |}]).
Proof.
  split; [|split].
  - intros env files job_id st st' Hrun i file Hfile.
    apply process_documents_inv in Hrun as (Hdocs & Hidx & Hok & _).
    pose proof (new_documents_lookup env files 0 i file Hfile) as Hnew.
    cbn [Nat.add] in Hnew. apply list_elem_of_lookup_2 in Hnew.
    assert (Hd : new_document env i file ∈ documents (store st'))
      by (rewrite Hdocs, elem_of_app; now right).
    split; [exact Hd|]. split; [reflexivity|]. split; [reflexivity|]. split.
    + intros term Hterm. rewrite Hidx, elem_of_app. right.
      apply list_elem_of_bind. exists (new_document env i file).
      split; [|exact Hnew]. now apply elem_of_index_rows.
    + intros Hst term top_k Hterm Hk.
      destruct (overlap_single term (new_document env i file) Hterm)
        as [Hset Hone].
      pose proof (search_finds_document (store st') term top_k
                    (new_document env i file) (Hok Hst) Hd) as Hfound.
      rewrite Hset, Hone in Hfound. now apply Hfound.
  - intros env files job_id st. apply process_documents_returns.
  - eexists. split; [vm_compute; reflexivity|]. vm_compute. reflexivity.
Qed.

Lemma ingestion_indexes_every_term_witness :
  exists st',
    process_documents sample_env sample_files "job-1" initial_state = inr st' /\
    ("engineer", "1") ∈ doc_index (store st').
Proof.
  destruct ingestion_indexes_every_term as [H _].
  eexists. split; [vm_compute; reflexivity|].
  apply (H sample_env sample_files "job-1" initial_state _ eq_refl 1
           {| filename := "b.txt"; contents := "python java engineer ny" |}
           eq_refl).
  by_evaluation.
Defined.

(** ** Job lifecycle *)

(** The job entry in the k-th state of the loop: one more document
    processed per state, and the flag set by the last one only. *)
Lemma ingest_loop_states_status (env : ingest_env) (job_id : string)
    (files : list UploadFile) (i : nat) (st : ingest_state) (n p : nat) :
  INGEST_STATUS st !! job_id
    = Some {| total := n; processed := p; done := false |} ->
  forall k s,
    ingest_loop_states env i job_id files st !! k = Some s ->
    INGEST_STATUS s !! job_id
      = Some {| total := n;
                processed := p + Nat.min (S k) (length files);
                done := bool_decide (length files <= k) |}.
Proof.
  revert i st p. induction files as [|file files IH]; intros i st p Hj k s Hk.
  - cbn [ingest_loop_states] in Hk. unfold finish_job in Hk. rewrite Hj in Hk.
    destruct k as [|k]; [|discriminate]. injection Hk as <-.
    cbn [INGEST_STATUS]. rewrite lookup_insert_eq. cbn.
    now rewrite Nat.add_0_r.
  - cbn [ingest_loop_states] in Hk.
    destruct (ingest_file env i job_id file st) as [e|st1] eqn:Hfile;
      [discriminate|].
    apply ingest_file_inv in Hfile as (_ & j0 & Hj0 & ->).
    rewrite Hj in Hj0. injection Hj0 as <-. cbn [total processed done] in *.
    destruct k as [|k].
    + injection Hk as <-. cbn [INGEST_STATUS]. rewrite lookup_insert_eq.
      cbn [length]. rewrite bool_decide_eq_false_2 by lia.
      do 2 f_equal; lia.
    + cbn in Hk. eapply IH in Hk; [|cbn [INGEST_STATUS]; apply lookup_insert_eq].
      rewrite Hk. cbn [length]. do 2 f_equal; [lia|].
      apply bool_decide_ext. lia.
Qed.

(** A run that returns has gone through one state per file, and a last one
    that it returns. *)
Lemma ingest_loop_states_complete (env : ingest_env) (job_id : string)
    (files : list UploadFile) (i : nat) (st st1 st' : ingest_state) :
  ingest_loop env i job_id files st = inr st1 ->
  finish_job job_id st1 = inr st' ->
  length (ingest_loop_states env i job_id files st) = length files + 1 /\
  last (ingest_loop_states env i job_id files st) = Some st'.
Proof.
  revert i st. induction files as [|file files IH]; intros i st Hloop Hfin.
  - cbn in Hloop. injection Hloop as ->. cbn. now rewrite Hfin.
  - cbn [ingest_loop ingest_loop_states] in *.
    destruct (ingest_file env i job_id file st) as [e|st2]; [discriminate|].
    cbn [bind] in Hloop. destruct (IH _ _ Hloop Hfin) as [Hlen Hlast].
    split; [cbn; lia|].
    rewrite last_cons, Hlast. reflexivity.
Qed.

(** C6. The states a batch of N files goes through carry, for its job, the
    total N throughout, a processed count that starts at 0 and grows by one
    with each state up to N, never beyond it, and a completion flag that is
    false in every state but the one after the loop, where the count is N;
    a later state never shows a smaller count or a cleared flag.  With new
    identifiers the batch runs to that last state and returns it.  An
    empty batch returns at once with the job complete.  The status of a job
    that is not in the table is the [not found] answer, distinct from every
    job status, and no exception. *)
Theorem ingestion_job_lifecycle (env : ingest_env) (files : list UploadFile)
    (job_id : string) (st : ingest_state) :
  (forall k s,
     process_documents_states env files job_id st !! k = Some s ->
     INGEST_STATUS s !! job_id
       = Some {| total := length files;
                 processed := Nat.min k (length files);
                 done := bool_decide (length files < k) |}) /\
  (forall k k' s s',
     k <= k' ->
     process_documents_states env files job_id st !! k = Some s ->
     process_documents_states env files job_id st !! k' = Some s' ->
     exists j j',
       INGEST_STATUS s !! job_id = Some j /\
       INGEST_STATUS s' !! job_id = Some j' /\
       processed j <= processed j' /\ processed j' <= total j' /\
       total j' = length files /\
       (done j' = true -> processed j' = length files) /\
       (processed j' < length files -> done j' = false) /\
       (done j = true -> done j' = true)) /\
  (fresh_ids env (length files) (store st) ->
   exists st',
     process_documents env files job_id st = inr st' /\
     length (process_documents_states env files job_id st) = length files + 2 /\
     last (process_documents_states env files job_id st) = Some st' /\
     INGEST_STATUS st' !! job_id
       = Some {| total := length files; processed := length files;
                 done := true |}) /\
  process_documents env [] job_id st
    = inr {| INGEST_STATUS :=
               <[job_id := {| total := 0; processed := 0; done := true |}]>
                 (INGEST_STATUS st);
             store := store st |} /\
  (forall (table : gmap string job) (unknown : string),
     table !! unknown = None ->
     ingest_status table unknown = StatusError "not found") /\
  (forall (table : gmap string job) (known : string) (j : job),
     table !! known = Some j -> ingest_status table known = JobStatus j) /\
  (forall (j : job) (msg : string), JobStatus j <> StatusError msg).
Proof.
  assert (Hpoint : forall k s,
     process_documents_states env files job_id st !! k = Some s ->
     INGEST_STATUS s !! job_id
       = Some {| total := length files;
                 processed := Nat.min k (length files);
                 done := bool_decide (length files < k) |}).
  { intros k s Hk. unfold process_documents_states in Hk.
    destruct k as [|k].
    - injection Hk as <-. cbn [start_job INGEST_STATUS].
      rewrite lookup_insert_eq. now rewrite bool_decide_eq_false_2 by lia.
    - cbn in Hk.
      eapply ingest_loop_states_status in Hk;
        [|cbn [start_job INGEST_STATUS]; apply lookup_insert_eq].
      rewrite Hk. do 2 f_equal. apply bool_decide_ext. lia. }
  split; [exact Hpoint|]. split; [|split; [|split; [|split; [|split]]]].
  - intros k k' s s' Hle Hs Hs'.
    rewrite (Hpoint k s Hs), (Hpoint k' s' Hs').
    eexists _, _. split; [reflexivity|]. split; [reflexivity|].
    cbn [total processed done]. repeat split; try lia.
    + intros Hd%bool_decide_eq_true. lia.
    + intros Hlt. apply bool_decide_eq_false. lia.
    + intros Hd%bool_decide_eq_true. apply bool_decide_eq_true. lia.
  - intros Hfresh.
    destruct (process_documents_returns env files job_id st Hfresh) as [st' Hrun].
    exists st'. split; [exact Hrun|].
    pose proof (process_documents_inv env files job_id st st' Hrun)
      as (_ & _ & _ & Hjob).
    unfold process_documents in Hrun.
    destruct (ingest_loop env 0 job_id files (start_job files job_id st))
      as [e|st1] eqn:Hloop; [discriminate|]. cbn [bind] in Hrun.
    destruct (ingest_loop_states_complete _ _ _ _ _ _ _ Hloop Hrun)
      as [Hlen Hlast].
    unfold process_documents_states. split; [cbn; lia|]. split; [|exact Hjob].
    rewrite last_cons, Hlast. reflexivity.
  - unfold process_documents. cbn. unfold finish_job, start_job.
    cbn [INGEST_STATUS]. rewrite lookup_insert_eq. cbn.
    now rewrite insert_insert_eq.
  - intros table unknown Hnone. unfold ingest_status. now rewrite Hnone.
  - intros table known j Hsome. unfold ingest_status. now rewrite Hsome.
  - discriminate.
Qed.

Lemma ingestion_job_lifecycle_witness :
  fresh_ids sample_env (length sample_files) (store initial_state) /\
  exists st',
    process_documents sample_env sample_files "job-1" initial_state = inr st' /\
    INGEST_STATUS st' !! "job-1"
      = Some {| total := 3; processed := 3; done := true |}.
Proof.
  assert (Hfresh : fresh_ids sample_env (length sample_files)
                     (store initial_state))
    by by_evaluation.
  split; [exact Hfresh|].
  destruct (ingestion_job_lifecycle sample_env sample_files "job-1"
              initial_state) as (_ & _ & H & _).
  destruct (H Hfresh) as (st' & Hrun & _ & _ & Hjob).
  exists st'. split; assumption.
Defined.


(** * Further properties of the code *)

(** ** Tokenizer *)

Lemma lower_append (a b : string) :
  Text.lower (String.append a b) = String.append (Text.lower a) (Text.lower b).
Proof.
  induction a as [|c a IH]; [reflexivity|].
  rewrite append_String. cbn [Text.lower]. now rewrite IH, append_String.
Qed.

Lemma lower_idempotent (s : string) : Text.lower (Text.lower s) = Text.lower s.
Proof.
  induction s as [|c s IH]; [reflexivity|]. cbn.
  now rewrite lower_char_idempotent, IH.
Qed.

Lemma token_char_lower_char (c : ascii) :
  token_char c = false -> Text.lower_char c = c.
Proof. destruct c as [[] [] [] [] [] [] [] []]; (reflexivity || discriminate). Qed.

(** A character outside the class closes the run that is being read. *)
Lemma findall_runs_separator (a b : string) (sep : ascii) (run : option string) :
  token_char sep = false ->
  findall_runs run (String.append a (String sep b))
  = findall_runs run a ++ findall_runs None b.
Proof.
  intros Hsep. revert run. induction a as [|c a IH]; intros run.
  - rewrite append_empty. cbn [findall_runs]. rewrite Hsep.
    now destruct run.
  - rewrite append_String. cbn [findall_runs].
    destruct (token_char c); [apply IH|].
    destruct run; rewrite IH; reflexivity.
Qed.

(** X1. Every token is a non-empty run of characters of the class
    [a-z0-9+#.-] without capitals (lowering leaves it as it is), and a
    token, tokenized again, gives itself and nothing else. *)
Theorem tokenize_gives_lowercase_runs (text t : string) :
  t ∈ tokenize text ->
  t <> EmptyString /\
  Text.all_chars token_char t = true /\
  Text.lower t = t /\
  tokenize t = [t].
Proof.
  intros Hin. pose proof (tokenize_tokens text t Hin) as Htok.
  destruct Htok as [Hne Hall]. split; [exact Hne|]. split; [|split].
  - clear Hin Hne. induction t as [|c t IH]; [reflexivity|].
    cbn [Text.all_chars] in *. unfold lowered_token_char at 1 in Hall.
    apply andb_true_iff in Hall as [[-> _]%andb_true_iff Hall]. now apply IH.
  - now apply lower_token.
  - now apply tokenize_token.
Qed.

Lemma tokenize_gives_lowercase_runs_witness :
  "c++" ∈ tokenize "Senior C++ Engineer" /\ tokenize "c++" = ["c++"].
Proof.
  assert (Hin : "c++" ∈ tokenize "Senior C++ Engineer") by by_evaluation.
  split; [exact Hin|].
  apply (tokenize_gives_lowercase_runs "Senior C++ Engineer" "c++" Hin).
Defined.



(** ** Keyword rules *)

Lemma prefix_append (n h b : string) :
  String.prefix n h = true -> String.prefix n (String.append h b) = true.
Proof.
  revert h. induction n as [|c n IH]; intros h.
  { intros _. now destruct (String.append h b). }
  destruct h as [|c' h]; [discriminate|].
  rewrite append_String. cbn [String.prefix].
  destruct (ascii_dec c c'); [apply IH|discriminate].
Qed.

Lemma contains_append_r (n h b : string) :
  Text.contains n h = true -> Text.contains n (String.append h b) = true.
Proof.
  induction h as [|c h IH].
  - cbn [Text.contains]. rewrite orb_false_r. intros Hp.
    destruct n; [|discriminate]. now destruct b.
  - rewrite append_String. cbn [Text.contains].
    intros [Hp|Hc]%orb_true_iff; apply orb_true_iff.
    + left. apply (prefix_append n (String c h) b Hp).
    + right. now apply IH.
Qed.

Lemma contains_append_l (n a h : string) :
  Text.contains n h = true -> Text.contains n (String.append a h) = true.
Proof.
  intros Hc. induction a as [|c a IH]; [exact Hc|].
  rewrite append_String. cbn [Text.contains]. rewrite IH. apply orb_true_r.
Qed.

Lemma contains_in_context (n a h b : string) :
  Text.contains n (Text.lower h) = true ->
  Text.contains n (Text.lower (String.append a (String.append h b))) = true.
Proof.
  intros Hc. rewrite !lower_append.
  now apply contains_append_l, contains_append_r.
Qed.

Lemma mentions_in_context (triggers : list string) (a q b : string) :
  mentions triggers q = true ->
  mentions triggers (String.append a (String.append q b)) = true.
Proof.
  unfold mentions. rewrite !existsb_exists.
  intros (kw & Hin & Hc). exists kw. split; [exact Hin|].
  now apply contains_in_context.
Qed.

(** X3. The keyword rules look for their keywords anywhere in the text, in
    any case: a query on the text route stays on it inside any longer text;
    a query on the structured route never falls back to the hybrid route
    inside a longer text; a count question stays a count question inside
    any longer text; and lowering a query changes neither its route nor its
    translation. *)
Theorem keyword_rules_survive_context (a q b : string) (year : N) :
  (simple_query_classifier q = QDoc ->
   simple_query_classifier (String.append a (String.append q b)) = QDoc) /\
  (simple_query_classifier q = QSql ->
   simple_query_classifier (String.append a (String.append q b)) <> QHybrid) /\
  (asks_count q = true ->
   _nl_to_sql year (String.append a (String.append q b)) = (SQL_COUNT_ALL, [])) /\
  simple_query_classifier (Text.lower q) = simple_query_classifier q /\
  _nl_to_sql year (Text.lower q) = _nl_to_sql year q.
Proof.
  split; [|split; [|split; [|split]]].
  - rewrite !classifier_by_triggers.
    destruct (mentions text_triggers q) eqn:Hq.
    + now rewrite (mentions_in_context _ a q b Hq).
    + now destruct (mentions structured_triggers q).
  - rewrite !classifier_by_triggers.
    destruct (mentions text_triggers q) eqn:Hq; [discriminate|].
    destruct (mentions structured_triggers q) eqn:Hs; [|discriminate].
    intros _. rewrite (mentions_in_context _ a q b Hs).
    destruct (mentions text_triggers (String.append a (String.append q b)));
      congruence.
  - unfold asks_count, _nl_to_sql. intros Hc.
    now rewrite (contains_in_context _ a q b Hc).
  - unfold simple_query_classifier. now rewrite lower_idempotent.
  - unfold _nl_to_sql. now rewrite lower_idempotent.
Qed.

Lemma keyword_rules_survive_context_witness :
  simple_query_classifier "resume" = QDoc /\
  simple_query_classifier
    (String.append "salary of " (String.append "resume" " writers")) = QDoc.
Proof.
  split; [reflexivity|].
  now apply (keyword_rules_survive_context "salary of " "resume" " writers" 2026).
Defined.

(** X4. The statement [_nl_to_sql] returns has exactly as many [?]
    placeholders as the list of parameters has values, for every query:
    executing it never fails on the number of bindings. *)
Theorem nl_to_sql_placeholders_match_params (year : N) (q : string) :
  count_char question_mark (_nl_to_sql year q).1
  = length (_nl_to_sql year q).2.
Proof.
  unfold _nl_to_sql.
  repeat match goal with |- context [if ?b then _ else _] => destruct b end;
    reflexivity.
Qed.

(** ** Reading the number of a top-N question *)









(** ** Schema discovery: samples and system tables *)




Lemma like_sqlite_prefix (name : string) :
  String.prefix "sqlite_" (Text.lower name) = true -> like_sqlite_ name = true.
Proof.
  destruct name as [|c1 [|c2 [|c3 [|c4 [|c5 [|c6 [|c7 rest]]]]]]];
    cbn [Text.lower String.prefix]; try discriminate;
    repeat match goal with
           | |- context [ascii_dec ?a ?b] =>
               destruct (ascii_dec a b); try discriminate
           end.
  intros _. unfold like_sqlite_.
  cbn [String.length String.substring Text.lower].
  repeat match goal with H : _ = Text.lower_char _ |- _ => rewrite <- H end.
  reflexivity.
Qed.

(** X7. Only objects of type [table] enter the snapshot, in the order the
    store lists them, and none whose name starts with [sqlite_], in
    whatever case the name is written. *)
Theorem schema_leaves_out_system_tables (db : list db_object) (now : timestamp) :
  (forall name ts,
     (name, ts) ∈ tables (analyze_database db now) ->
     String.prefix "sqlite_" (Text.lower name) = false /\
     exists t, t ∈ db /\ obj_type t = "table" /\ obj_name t = name /\
               ts = analyze_table t) /\
  (tables (analyze_database db now)).*1 `sublist_of` obj_name <$> db.
Proof.
  split.
  - intros name ts Hin. unfold analyze_database in Hin. cbn [tables] in Hin.
    apply list_elem_of_fmap in Hin as (t & [= -> ->] & Ht).
    apply list_elem_of_filter in Ht as [[Hty Hlike] Ht]. split.
    + destruct (String.prefix "sqlite_" (Text.lower (obj_name t))) eqn:Hp;
        [|reflexivity].
      apply like_sqlite_prefix in Hp. congruence.
    + exists t. repeat split; auto. now apply String.eqb_eq.
  - unfold analyze_database. cbn [tables].
    change (map (fun t => (obj_name t, analyze_table t)))
      with (fmap (M := list) (fun t => (obj_name t, analyze_table t))).
    rewrite <- list_fmap_compose.
    apply (fmap_sublist obj_name). apply sublist_filter.
Qed.

(** ** Search: what the hits depend on *)

Lemma search_documents_same_terms (db : doc_store) (q1 q2 : string) (top_k : nat) :
  (forall term, term ∈ tokenize q1 <-> term ∈ tokenize q2) ->
  search_documents db q1 top_k = search_documents db q2 top_k.
Proof.
  intros Hsame. unfold search_documents.
  assert (Hset : forall term,
             term ∈ set_of (tokenize q1) <-> term ∈ set_of (tokenize q2))
    by (intros term; unfold set_of; now rewrite !elem_of_remove_dups).
  assert (Hrows : matching_rows (set_of (tokenize q1)) (doc_index db)
                  = matching_rows (set_of (tokenize q2)) (doc_index db))
    by (unfold matching_rows; apply list_filter_iff; intros r; apply Hset).
  destruct (set_of (tokenize q1)) as [|t1 ts1] eqn:H1;
    destruct (set_of (tokenize q2)) as [|t2 ts2] eqn:H2.
  - reflexivity.
  - exfalso. apply (elem_of_nil t2), Hset. left.
  - exfalso. apply (elem_of_nil t1), Hset. left.
  - now rewrite Hrows.
Qed.

(** X8. The hits of a search depend on the query only through the set of
    its terms: two queries with the same terms get the same hits, so the
    case of the query, the order of its words, repeated words and the
    characters between the words play no part. *)
Theorem search_depends_on_term_set (db : doc_store) (top_k : nat) :
  (forall q1 q2 : string,
     (forall term, term ∈ tokenize q1 <-> term ∈ tokenize q2) ->
     search_documents db q1 top_k = search_documents db q2 top_k) /\
  (forall q : string,
     search_documents db (Text.lower q) top_k = search_documents db q top_k) /\
  (forall (q1 q2 : string) (sep : ascii),
     token_char sep = false ->
     search_documents db (String.append q1 (String sep q2)) top_k
     = search_documents db (String.append q2 (String sep q1)) top_k) /\
  (forall (q : string) (sep : ascii),
     token_char sep = false ->
     search_documents db (String.append q (String sep q)) top_k
     = search_documents db q top_k).
Proof.
  split; [intros q1 q2; apply search_documents_same_terms|].
  split; [|split].
  - intros q. apply search_documents_same_terms. intros term.
    unfold tokenize. now rewrite lower_idempotent.
  - intros q1 q2 sep Hsep. apply search_documents_same_terms. intros term.
    unfold tokenize. rewrite !lower_append. cbn [Text.lower].
    rewrite (token_char_lower_char sep Hsep).
    rewrite !findall_runs_separator by exact Hsep.
    rewrite !elem_of_app. tauto.
  - intros q sep Hsep. apply search_documents_same_terms. intros term.
    unfold tokenize. rewrite !lower_append. cbn [Text.lower].
    rewrite (token_char_lower_char sep Hsep).
    rewrite !findall_runs_separator by exact Hsep.
    rewrite !elem_of_app. tauto.
Qed.

Lemma search_depends_on_term_set_witness :
  search_documents sample_store "engineer java" 5
  = search_documents sample_store "JAVA, Java   engineer!" 5.
Proof.
  destruct (search_depends_on_term_set sample_store 5) as [H _].
  apply H. intros term.
  assert (Hl : tokenize "engineer java" = ["engineer"; "java"]) by reflexivity.
  assert (Hr : tokenize "JAVA, Java   engineer!" = ["java"; "java"; "engineer"])
    by reflexivity.
  rewrite Hl, Hr. rewrite !elem_of_cons. tauto.
Defined.



(** ** Query engine: what a query does to the cache *)

Section LRUCacheFrame.
Context {K V : Type} `{EqDecision K}.
Implicit Types (c : list (K * V)) (k : K) (v : V).

Lemma lru_get_remove_other k k' c :
  k <> k' -> LRUCache.get k (LRUCache.remove k' c) = LRUCache.get k c.
Proof.
  intros Hne. induction c as [|[k0 v0] c IH]; [reflexivity|].
  unfold LRUCache.remove. destruct (decide (k0 = k')) as [->|Hk0].
  - rewrite filter_cons_False by (cbn; tauto). fold (LRUCache.remove k' c).
    cbn [LRUCache.get]. rewrite decide_False by congruence. exact IH.
  - rewrite filter_cons_True by (cbn; congruence). fold (LRUCache.remove k' c).
    cbn [LRUCache.get]. now rewrite IH.
Qed.

Lemma lru_get_snoc_other k k' v' c :
  k <> k' -> LRUCache.get k (c ++ [(k', v')]) = LRUCache.get k c.
Proof.
  intros Hne. rewrite lru_get_app. destruct (LRUCache.get k c); [reflexivity|].
  cbn. now rewrite decide_False by congruence.
Qed.

End LRUCacheFrame.

(** X10. The cache is keyed on the text of the query as it was typed: after
    any query, a different text that the cache did not hold is computed
    afresh and not served as a hit, even when the two texts differ only
    in case and are routed and translated alike. *)
Theorem process_query_keys_are_raw_text (w1 w2 : world) (q q' : string)
    (cache : LRUCache.t cache_key query_result) :
  q <> q' ->
  LRUCache.contains (q', simple_query_classifier q') cache = false ->
  exists r1 cache1 cache2,
    process_query w1 q cache = inr (r1, cache1) /\
    process_query w2 q' cache1 = inr (fresh_result w2 q', cache2) /\
    qr_cached (fresh_result w2 q') = false.
Proof.
  intros Hne Hc'. set (k := (q, simple_query_classifier q)).
  set (k' := (q', simple_query_classifier q')) in *.
  assert (Hk : k' <> k) by (unfold k, k'; congruence).
  apply lru_contains_false in Hc'.
  assert (Hsnoc : forall (pre : list (cache_key * query_result)) r,
             k' ∉ LRUCache.keys pre ->
             LRUCache.contains k' (pre ++ [(k, r)]) = false).
  { intros pre r Hpre. apply lru_contains_false.
    rewrite lru_keys_app, elem_of_app. intros [Hin|Hin]; [contradiction|].
    unfold LRUCache.keys in Hin. cbn in Hin.
    now apply list_elem_of_singleton in Hin. }
  destruct (LRUCache.contains k cache) eqn:Hc.
  - destruct (process_query_hit w1 q cache Hc) as (stored & _ & Hrun1).
    fold k in Hrun1. eexists _, _, _. split; [exact Hrun1|].
    split; [|reflexivity]. apply process_query_miss, Hsnoc.
    intros Hin. apply Hc'. now apply lru_remove_keys in Hin as [Hin _].
  - pose proof (process_query_miss w1 q cache Hc) as Hrun1. fold k in Hrun1.
    eexists _, _, _. split; [exact Hrun1|].
    split; [|reflexivity]. apply process_query_miss, Hsnoc.
    intros Hin. apply Hc'. now apply lru_evict_keys in Hin.
Qed.

Lemma process_query_keys_are_raw_text_witness :
  exists r1 cache1 cache2,
    process_query failing_world "How many employees?" LRUCache.empty
      = inr (r1, cache1) /\
    process_query failing_world "how many employees?" cache1
      = inr (fresh_result failing_world "how many employees?", cache2) /\
    qr_cached (fresh_result failing_world "how many employees?") = false.
Proof.
  apply (process_query_keys_are_raw_text failing_world failing_world
           "How many employees?" "how many employees?" LRUCache.empty).
  - discriminate.
  - reflexivity.
Defined.

(** X11. A query leaves the cached results of all other keys as they are.
    On a cache with distinct keys within its capacity, the entry of
    another key is still there with the same result after the query,
    unless the query was a miss on a full cache and that entry was the
    least recently used one; and no entry appears for a key that was not
    cached, other than the key of the query. *)
Theorem process_query_leaves_other_entries (w : world) (q : string)
    (cache cache' : LRUCache.t cache_key query_result) (r : query_result)
    (k : cache_key) :
  process_query w q cache = inr (r, cache') ->
  k <> (q, simple_query_classifier q) ->
  NoDup (LRUCache.keys cache) ->
  LRUCache.currsize cache <= QUERY_CACHE_maxsize ->
  (LRUCache.get k cache = None -> LRUCache.get k cache' = None) /\
  (forall v,
     LRUCache.get k cache = Some v ->
     LRUCache.get k cache' = Some v \/
     (LRUCache.get k cache' = None /\
      LRUCache.contains (q, simple_query_classifier q) cache = false /\
      LRUCache.currsize cache = QUERY_CACHE_maxsize /\
      exists rest, cache = (k, v) :: rest)).
Proof.
  intros Hrun Hk Hnd Hlen.
  destruct (LRUCache.contains (q, simple_query_classifier q) cache) eqn:Hc.
  - destruct (process_query_hit w q cache Hc) as (stored & _ & Heq).
    rewrite Heq in Hrun. injection Hrun as _ <-.
    rewrite lru_get_snoc_other, lru_get_remove_other by exact Hk.
    split; [auto|]. intros v Hv. now left.
  - rewrite (process_query_miss w q cache Hc) in Hrun. injection Hrun as _ <-.
    rewrite lru_get_snoc_other by exact Hk.
    destruct (decide (length cache + 1 <= QUERY_CACHE_maxsize)) as [Hfit|Hfull].
    + rewrite lru_evict_fits by exact Hfit. split; [auto|]. intros v Hv. now left.
    + assert (Hfull' : length cache = QUERY_CACHE_maxsize)
        by (unfold LRUCache.currsize in Hlen; lia).
      rewrite lru_evict_full by (unfold QUERY_CACHE_maxsize in *; lia).
      destruct cache as [|[k0 v0] rest]; [split; [auto|discriminate]|].
      cbn [tail LRUCache.get].
      unfold LRUCache.keys in Hnd. rewrite fmap_cons in Hnd.
      apply NoDup_cons in Hnd as [Hk0 _]. cbn [fst] in Hk0.
      destruct (decide (k0 = k)) as [->|Hk0k].
      * split; [discriminate|]. intros v [= <-]. right.
        split; [now apply lru_get_None|]. repeat split; eauto.
      * split; [auto|]. intros v Hv. now left.
Qed.

Lemma process_query_leaves_other_entries_witness :
  exists r1 r2 cache1 cache2,
    process_query failing_world "Find resumes with Python skill" LRUCache.empty
      = inr (r1, cache1) /\
    process_query failing_world "hello" cache1 = inr (r2, cache2) /\
    LRUCache.get ("Find resumes with Python skill", QDoc) cache2 = Some r1.
Proof.
  eexists _, _, _, _. split; [vm_compute; reflexivity|].
  split; [vm_compute; reflexivity|].
  match goal with
  | |- LRUCache.get ?k ?c2 = Some ?r1 =>
      destruct (process_query_leaves_other_entries failing_world "hello"
                  [(k, r1)] c2
                  (fresh_result failing_world "hello") k) as [_ H];
      [vm_compute; reflexivity | discriminate | by_evaluation
      | cbn; unfold QUERY_CACHE_maxsize; lia |]
  end.
  destruct (H _ eq_refl) as [Hget|(Hnone & _ & Hsize & _)];
    [|discriminate Hsize].
  vm_compute in Hget |- *. exact Hget.
Defined.

(** ** Ingestion: what a batch leaves behind *)

Lemma extends_state_refl (job_id : string) (st : ingest_state) :
  extends_state job_id st st.
Proof. split; [reflexivity|]. split; [reflexivity|]. split; auto. Qed.

Lemma extends_state_trans (job_id : string) (st1 st2 st3 : ingest_state) :
  extends_state job_id st1 st2 -> extends_state job_id st2 st3 ->
  extends_state job_id st1 st3.
Proof.
  intros (Hd1 & Hi1 & Hj1 & Hok1) (Hd2 & Hi2 & Hj2 & Hok2).
  split; [etrans; eassumption|]. split; [etrans; eassumption|].
  split; [|auto]. intros other Hne. now rewrite Hj2, Hj1.
Qed.

Lemma ingest_file_extends (env : ingest_env) (i : nat) (job_id : string)
    (file : UploadFile) (st st' : ingest_state) :
  ingest_file env i job_id file st = inr st' -> extends_state job_id st st'.
Proof.
  intros (Hid & j & Hj & ->)%ingest_file_inv. unfold extends_state.
  cbn [store INGEST_STATUS documents doc_index].
  split; [now apply prefix_app_r|]. split; [now apply prefix_app_r|].
  split; [intros other Hne; now rewrite lookup_insert_ne|].
  intros Hok. now apply store_ok_snoc.
Qed.

Lemma finish_job_extends (job_id : string) (st st' : ingest_state) :
  finish_job job_id st = inr st' -> extends_state job_id st st'.
Proof.
  unfold finish_job. destruct (INGEST_STATUS st !! job_id); [|discriminate].
  intros [= <-]. unfold extends_state. cbn [store INGEST_STATUS].
  split; [reflexivity|]. split; [reflexivity|]. split; [|auto].
  intros other Hne. now rewrite lookup_insert_ne.
Qed.

Lemma ingest_loop_states_extend (env : ingest_env) (job_id : string)
    (files : list UploadFile) (i : nat) (st s : ingest_state) :
  s ∈ ingest_loop_states env i job_id files st -> extends_state job_id st s.
Proof.
  revert i st. induction files as [|file files IH]; intros i st Hs.
  - cbn [ingest_loop_states] in Hs.
    destruct (finish_job job_id st) as [e|st'] eqn:Hfin;
      [now apply elem_of_nil in Hs|].
    apply list_elem_of_singleton in Hs as ->. now apply finish_job_extends.
  - cbn [ingest_loop_states] in Hs.
    destruct (ingest_file env i job_id file st) as [e|st1] eqn:Hfile;
      [now apply elem_of_nil in Hs|].
    apply ingest_file_extends in Hfile.
    apply elem_of_cons in Hs as [->|Hs]; [exact Hfile|].
    eapply extends_state_trans; [exact Hfile|]. now apply (IH (S i)).
Qed.

(** X12. A batch only adds: in every state it goes through, whether it
    ends or raises on the way, the documents and index rows that were
    stored before are still there, in their places, with new ones after
    them; the entries of all other jobs are as they were; and the store
    keeps its invariant, so that every index row belongs to a stored
    document that holds its term. *)
Theorem ingestion_only_adds (env : ingest_env) (files : list UploadFile)
    (job_id : string) (st s : ingest_state) :
  s ∈ process_documents_states env files job_id st ->
  documents (store st) `prefix_of` documents (store s) /\
  doc_index (store st) `prefix_of` doc_index (store s) /\
  (forall other, other <> job_id ->
                 INGEST_STATUS s !! other = INGEST_STATUS st !! other) /\
  (store_ok (store st) ->
   store_ok (store s) /\
   forall term id,
     (term, id) ∈ doc_index (store s) ->
     exists d, d ∈ documents (store s) /\ doc_id d = id /\
               term ∈ tokenize (content d)).
Proof.
  intros Hs. unfold process_documents_states in Hs.
  assert (Hstart : extends_state job_id st (start_job files job_id st)).
  { unfold extends_state, start_job. cbn [store INGEST_STATUS].
    split; [reflexivity|]. split; [reflexivity|]. split; [|auto].
    intros other Hne. now rewrite lookup_insert_ne. }
  assert (Hext : extends_state job_id st s).
  { apply elem_of_cons in Hs as [->|Hs]; [exact Hstart|].
    eapply extends_state_trans; [exact Hstart|].
    now apply ingest_loop_states_extend in Hs. }
  destruct Hext as (Hdocs & Hidx & Hjobs & Hok).
  split; [exact Hdocs|]. split; [exact Hidx|]. split; [exact Hjobs|].
  intros Hst. split; [auto|]. intros term id Hin.
  now apply (store_ok_elem_of (store s) term id (Hok Hst)) in Hin.
Qed.

Lemma ingestion_only_adds_witness :
  exists s,
    process_documents sample_env sample_files "job-1" initial_state = inr s /\
    documents (store initial_state) `prefix_of` documents (store s).
Proof.
  eexists. split; [vm_compute; reflexivity|].
  eapply (ingestion_only_adds sample_env sample_files "job-1" initial_state).
  unfold process_documents_states. right. cbn. right. right. right. left.
Defined.

Lemma ingest_loop_stops (env : ingest_env) (job_id : string) (i : nat) :
  forall (files : list UploadFile) (i0 : nat) (st : ingest_state)
         (file : UploadFile) (j : job),
    files !! i = Some file ->
    NoDup ((uuid4 env <$> seq i0 i) ++ (doc_id <$> documents (store st))) ->
    uuid4 env (i0 + i)
      ∈ (uuid4 env <$> seq i0 i) ++ (doc_id <$> documents (store st)) ->
    INGEST_STATUS st !! job_id = Some j ->
    ingest_loop env i0 job_id files st
      = inl (IntegrityError "UNIQUE constraint failed: documents.doc_id") /\
    length (ingest_loop_states env i0 job_id files st) = i /\
    exists s,
      last (st :: ingest_loop_states env i0 job_id files st) = Some s /\
      INGEST_STATUS s !! job_id
        = Some {| total := total j; processed := processed j + i;
                  done := done j |} /\
      documents (store s)
        = documents (store st) ++ new_documents env i0 (take i files).
Proof.
  induction i as [|i IH]; intros files i0 st file j Hfile Hfresh Htaken Hj;
    destruct files as [|f rest]; try discriminate.
  - cbn in Htaken. rewrite Nat.add_0_r in Htaken.
    cbn [ingest_loop ingest_loop_states]. unfold ingest_file.
    rewrite bool_decide_eq_true_2 by exact Htaken. cbn [raise bind].
    split; [reflexivity|]. split; [reflexivity|].
    exists st. cbn. rewrite app_nil_r, Nat.add_0_r.
    repeat split. now destruct j.
  - cbn in Hfile. cbn [seq fmap list_fmap app] in Hfresh, Htaken.
    apply NoDup_cons in Hfresh as [Hid Hfresh].
    assert (Hnew : doc_id (new_document env i0 f)
                     ∉ doc_id <$> documents (store st))
      by (intros Hin; apply Hid, elem_of_app; now right).
    destruct (ingest_file_fresh env i0 job_id f st j Hnew Hj) as [st1 Hrun].
    pose proof Hrun as (_ & j0 & Hj0 & Hst1)%ingest_file_inv.
    rewrite Hj in Hj0. injection Hj0 as <-.
    cbn [ingest_loop ingest_loop_states]. rewrite Hrun. cbn [bind].
    destruct (IH rest (S i0) st1 file
                {| total := total j; processed := processed j + 1;
                   done := done j |} Hfile)
      as (Hloop & Hlen & s & Hlast & Hjob & Hdocs).
    + rewrite Hst1. cbn [store documents]. rewrite fmap_app. cbn [fmap list_fmap].
      rewrite app_assoc. rewrite <- Permutation_cons_append.
      apply NoDup_cons. split; [exact Hid|exact Hfresh].
    + rewrite Hst1. cbn [store documents]. rewrite fmap_app. cbn [fmap list_fmap].
      replace (S i0 + i) with (i0 + S i) by lia.
      rewrite app_assoc, elem_of_app.
      apply elem_of_cons in Htaken as [Heq|Hin]; [right|now left].
      rewrite Heq. cbn. left.
    + rewrite Hst1. cbn [INGEST_STATUS]. apply lookup_insert_eq.
    + split; [exact Hloop|]. split; [cbn; now rewrite Hlen|].
      exists s. split; [|split].
      * rewrite last_cons, Hlast. reflexivity.
      * rewrite Hjob. cbn. do 2 f_equal. lia.
      * rewrite Hdocs, Hst1. cbn [store documents take new_documents].
        now rewrite <- app_assoc.
Qed.

(** X13. When the identifier drawn for a file is already taken, the batch
    raises at that file and nothing is rolled back: the documents of the
    files before it stay stored, the job shows that many as processed and
    is never marked complete. *)
Theorem ingestion_stops_at_taken_id (env : ingest_env) (files : list UploadFile)
    (job_id : string) (st : ingest_state) (i : nat) (file : UploadFile) :
  files !! i = Some file ->
  fresh_ids env i (store st) ->
  id_taken env i (store st) ->
  process_documents env files job_id st
    = inl (IntegrityError "UNIQUE constraint failed: documents.doc_id") /\
  length (process_documents_states env files job_id st) = i + 1 /\
  exists s,
    last (process_documents_states env files job_id st) = Some s /\
    INGEST_STATUS s !! job_id
      = Some {| total := length files; processed := i; done := false |} /\
    documents (store s)
      = documents (store st) ++ new_documents env 0 (take i files).
Proof.
  intros Hfile Hfresh Htaken.
  destruct (ingest_loop_stops env job_id i files 0 (start_job files job_id st)
              file {| total := length files; processed := 0; done := false |}
              Hfile Hfresh Htaken)
    as (Hloop & Hlen & s & Hlast & Hjob & Hdocs).
  { cbn [start_job INGEST_STATUS]. apply lookup_insert_eq. }
  unfold process_documents, process_documents_states.
  rewrite Hloop. split; [reflexivity|]. split; [cbn; lia|].
  exists s. split; [exact Hlast|]. split; [exact Hjob|exact Hdocs].
Qed.

Lemma ingestion_stops_at_taken_id_witness :
  exists s,
    last (process_documents_states repeating_env sample_files "job-1"
            initial_state) = Some s /\
    INGEST_STATUS s !! "job-1"
      = Some {| total := 3; processed := 2; done := false |}.
Proof.
  destruct (ingestion_stops_at_taken_id repeating_env sample_files "job-1"
              initial_state 2 {| filename := "c.txt"; contents := "cobol" |})
    as (_ & _ & s & Hlast & Hjob & _).
  - reflexivity.
  - unfold fresh_ids. by_evaluation.
  - unfold id_taken. by_evaluation.
  - exists s. split; [exact Hlast|exact Hjob].
Defined.

(** ** The query endpoint *)

(** X14. The endpoint answers [empty query], without looking at the cache or
    changing it, when the body has no [query] field or one that Python
    counts as false (null, false, zero, the empty string, list or object).
    A non-empty string is handed to the engine, whose result and cache are
    returned.  Any other value raises an attribute error: the endpoint
    returns exactly when the field is missing, false or a string. *)
Theorem query_endpoint_cases (w : world) (payload : gmap string json)
    (cache : LRUCache.t cache_key query_result) :
  (payload !! "query" = None ->
   query w payload cache = inr (ReplyError "empty query", cache)) /\
  (forall v, payload !! "query" = Some v -> truthy v = false ->
             query w payload cache = inr (ReplyError "empty query", cache)) /\
  (forall s, payload !! "query" = Some (JString s) -> s <> EmptyString ->
             exists r cache',
               process_query w s cache = inr (r, cache') /\
               query w payload cache = inr (ReplyResult r, cache')) /\
  (forall v, payload !! "query" = Some v -> truthy v = true ->
             (forall s, v <> JString s) ->
             exists msg, query w payload cache = inl (AttributeError msg)) /\
  ((exists reply cache', query w payload cache = inr (reply, cache')) <->
   (payload !! "query" = None \/
    exists v, payload !! "query" = Some v /\
              (truthy v = false \/ exists s, v = JString s))).
Proof.
  assert (Hstring : forall s, payload !! "query" = Some (JString s) ->
                              s <> EmptyString ->
                              exists r cache',
                                process_query w s cache = inr (r, cache') /\
                                query w payload cache = inr (ReplyResult r, cache')).
  { intros s Hq Hs. unfold query. rewrite Hq.
    change (default (JString EmptyString) (Some (JString s))) with (JString s).
    cbn [truthy].
    apply String.eqb_neq in Hs. rewrite Hs. cbn [negb].
    destruct (process_query_stores w s cache) as (r & pre & Hrun & _).
    rewrite Hrun. eauto. }
  assert (Hfalse : forall v, payload !! "query" = Some v -> truthy v = false ->
                   query w payload cache = inr (ReplyError "empty query", cache)).
  { intros v Hq Hv. unfold query. rewrite Hq.
    change (default (JString EmptyString) (Some v)) with v. now rewrite Hv. }
  assert (Hother : forall v, payload !! "query" = Some v -> truthy v = true ->
                   (forall s, v <> JString s) ->
                   exists msg, query w payload cache = inl (AttributeError msg)).
  { intros v Hq Hv Hns. unfold query. rewrite Hq.
    change (default (JString EmptyString) (Some v)) with v. rewrite Hv.
    cbn [negb]. destruct v; eauto. now destruct (Hns s). }
  assert (Hnone : payload !! "query" = None ->
                  query w payload cache = inr (ReplyError "empty query", cache)).
  { intros Hq. unfold query. now rewrite Hq. }
  split; [exact Hnone|]. split; [exact Hfalse|]. split; [exact Hstring|].
  split; [exact Hother|]. split.
  - intros (reply & cache' & Hrun).
    destruct (payload !! "query") as [v|] eqn:Hq; [right|now left].
    exists v. split; [reflexivity|].
    destruct (truthy v) eqn:Hv; [right|now left].
    destruct v; eauto;
      destruct (Hother _ eq_refl Hv) as [msg Hraise];
      try discriminate; congruence.
  - intros [Hq|(v & Hq & [Hv|[s ->]])].
    + rewrite (Hnone Hq). eauto.
    + rewrite (Hfalse v Hq Hv). eauto.
    + destruct (String.eqb_spec s EmptyString) as [->|Hs].
      * rewrite (Hfalse _ Hq eq_refl). eauto.
      * destruct (Hstring s Hq Hs) as (r & cache' & _ & ->). eauto.
Qed.

Lemma query_endpoint_cases_witness :
  query failing_world {[ "query" := JInt 0 ]} LRUCache.empty
    = inr (ReplyError "empty query", LRUCache.empty) /\
  exists msg,
    query failing_world {[ "query" := JInt 5 ]} LRUCache.empty
      = inl (AttributeError msg).
Proof.
  destruct (query_endpoint_cases failing_world {[ "query" := JInt 0 ]}
              LRUCache.empty) as (_ & H0 & _).
  destruct (query_endpoint_cases failing_world {[ "query" := JInt 5 ]}
              LRUCache.empty) as (_ & _ & _ & H5 & _).
  split.
  - apply (H0 (JInt 0)); [apply lookup_singleton_eq|reflexivity].
  - apply (H5 (JInt 5)); [apply lookup_singleton_eq|reflexivity|discriminate].
Defined.
(** ** Concurrent batches *)

Lemma start_job_extends (files : list UploadFile) (job_id : string)
    (st : ingest_state) :
  extends_state job_id st (start_job files job_id st).
Proof.
  unfold extends_state, start_job. cbn [store INGEST_STATUS].
  split; [reflexivity|]. split; [reflexivity|]. split; [|auto].
  intros other Hne. now rewrite lookup_insert_ne.
Qed.

Lemma ingest_file_raises (env : ingest_env) (i : nat) (job_id : string)
    (file : UploadFile) (st : ingest_state) (e : exn) :
  ingest_file env i job_id file st = inl e ->
  is_Some (INGEST_STATUS st !! job_id) ->
  e = IntegrityError "UNIQUE constraint failed: documents.doc_id".
Proof.
  unfold ingest_file. case_bool_decide; [now intros [= <-]|].
  intros Hrun [j Hj]. rewrite Hj in Hrun. discriminate.
Qed.

Lemma finish_job_present (job_id : string) (st : ingest_state) (j : job) :
  INGEST_STATUS st !! job_id = Some j ->
  finish_job job_id st
  = inr {| INGEST_STATUS :=
             <[job_id := {| total := total j; processed := processed j;
                            done := true |}]> (INGEST_STATUS st);
           store := store st |}.
Proof. intros Hj. unfold finish_job. now rewrite Hj. Qed.

Lemma start_job_entry (files : list UploadFile) (job_id : string)
    (st : ingest_state) :
  INGEST_STATUS (start_job files job_id st) !! job_id
  = Some {| total := length files; processed := 0; done := false |}.
Proof. unfold start_job. cbn [INGEST_STATUS]. apply lookup_insert_eq. Qed.

(** What one turn of a task does. *)
Lemma task_step_spec (t : task) (st : ingest_state) :
  task_ok st t ->
  extends_state (task_job t) st (task_step t st).2 /\
  task_job (task_step t st).1 = task_job t /\
  task_ok (task_step t st).2 (task_step t st).1 /\
  (forall e1, INGEST_STATUS st !! task_job t = Some e1 ->
              exists e2,
                INGEST_STATUS (task_step t st).2 !! task_job t = Some e2 /\
                entry_le e1 e2).
Proof.
  intros [Hentry Hphase]. unfold task_step, entry_of_phase in *.
  destruct t as [env jb files ph]. cbn [task_job task_files task_env task_phase] in *.
  destruct ph as [|i| |i e].
  - (* first turn *)
    destruct files as [|f files].
    + cbv zeta.
      rewrite (finish_job_present _ _ _ (start_job_entry _ _ _)).
      cbn [fst snd set_phase task_job task_files task_phase total processed].
      split; [|split; [reflexivity|split]].
      * unfold extends_state, start_job. cbn [store INGEST_STATUS].
        split; [reflexivity|]. split; [reflexivity|]. split; [|auto].
        intros other Hne. now rewrite !lookup_insert_ne.
      * split; [|exact I]. cbn. now rewrite lookup_insert_eq.
      * intros e1 He1. congruence.
    + cbn [fst snd set_phase task_job].
      split; [apply start_job_extends|]. split; [reflexivity|]. split.
      * split; [|split; [cbn; lia|discriminate]].
        cbn. now rewrite lookup_insert_eq.
      * intros e1 He1. congruence.
  - (* between two files *)
    destruct Hphase as [Hi Hfiles].
    destruct (files !! i) as [file|] eqn:Hfile.
    + pose proof (lookup_lt_Some _ _ _ Hfile) as Hlt.
      destruct (ingest_file env i jb file st) as [e|st'] eqn:Hrun;
        cbn [fst snd set_phase task_job].
      * split; [apply extends_state_refl|]. split; [reflexivity|]. split.
        -- split; [exact Hentry|]. split; [exact Hlt|].
           eapply ingest_file_raises; [exact Hrun|]. rewrite Hentry. eauto.
        -- intros e1 He1. exists e1. split; [exact He1|].
           repeat split; auto.
      * split; [now apply ingest_file_extends in Hrun|].
        split; [reflexivity|].
        apply ingest_file_inv in Hrun as (_ & j & Hj & ->).
        rewrite Hentry in Hj. injection Hj as <-.
        cbn [INGEST_STATUS total processed done]. split.
        -- split; [|split; [exact Hlt|exact Hfiles]].
           cbn. rewrite lookup_insert_eq. do 2 f_equal. lia.
        -- intros e1 He1. rewrite Hentry in He1. injection He1 as <-.
           eexists. split; [apply lookup_insert_eq|].
           split; [reflexivity|]. split; [cbn; lia|discriminate].
    + apply lookup_ge_None in Hfile.
      assert (i = length files) as -> by lia.
      rewrite (finish_job_present _ _ _ Hentry).
      cbn [fst snd set_phase task_job task_files task_phase total processed].
      split; [|split; [reflexivity|split]].
      * unfold extends_state. cbn [store INGEST_STATUS].
        split; [reflexivity|]. split; [reflexivity|]. split; [|auto].
        intros other Hne. now rewrite lookup_insert_ne.
      * split; [|exact I]. cbn. now rewrite lookup_insert_eq.
      * intros e1 He1. rewrite Hentry in He1. injection He1 as <-.
        eexists. cbn [INGEST_STATUS].
        split; [apply lookup_insert_eq|].
        split; [reflexivity|]. split; [cbn; lia|discriminate].
  - cbn [fst snd]. split; [apply extends_state_refl|]. split; [reflexivity|].
    split; [now split|]. intros e1 He1. exists e1. split; [exact He1|].
    repeat split; auto.
  - cbn [fst snd]. split; [apply extends_state_refl|]. split; [reflexivity|].
    split; [now split|]. intros e1 He1. exists e1. split; [exact He1|].
    repeat split; auto.
Qed.

(** A task that did not take the turn is not concerned by it. *)
Lemma task_ok_other (job_id : string) (st st' : ingest_state) (t : task) :
  extends_state job_id st st' -> task_job t <> job_id ->
  task_ok st t -> task_ok st' t.
Proof.
  intros (_ & _ & Hjobs & _) Hne [Hentry Hphase].
  split; [|exact Hphase]. now rewrite Hjobs.
Qed.

Lemma sys_step_jobs (s : system) (e : event) :
  sys_ok s ->
  task_job <$> sys_tasks (sys_step s e)
  = (task_job <$> sys_tasks s) ++ uploaded_jobs [e].
Proof.
  intros (_ & _ & _ & Hall). destruct e as [env jb files|n]; cbn.
  - now rewrite fmap_app.
  - rewrite app_nil_r. destruct (sys_tasks s !! n) as [t|] eqn:Ht; [|reflexivity].
    rewrite Forall_lookup in Hall.
    destruct (task_step_spec t (sys_state s) (Hall n t Ht)) as (_ & Hjob & _).
    destruct (task_step t (sys_state s)) as [t' st']. cbn [sys_tasks fst] in *.
    rewrite list_fmap_insert, Hjob. apply list_insert_id.
    now rewrite list_lookup_fmap, Ht.
Qed.

(** One event keeps the invariant, and moves no entry backwards. *)
Lemma sys_step_ok (s : system) (e : event) :
  sys_ok s ->
  (forall j, j ∈ uploaded_jobs [e] -> j ∉ task_job <$> sys_tasks s) ->
  sys_ok (sys_step s e) /\
  documents (store (sys_state s))
    `prefix_of` documents (store (sys_state (sys_step s e))) /\
  (forall j e1,
     INGEST_STATUS (sys_state s) !! j = Some e1 ->
     exists e2, INGEST_STATUS (sys_state (sys_step s e)) !! j = Some e2 /\
                entry_le e1 e2).
Proof.
  intros Hok Hfreshjob.
  pose proof (sys_step_jobs s e Hok) as Hjobs.
  destruct Hok as (Hstore & Hnd & Hdom & Hall).
  assert (Hrefl : forall e1 : job, entry_le e1 e1) by (repeat split; auto).
  destruct e as [env jb files|n].
  - clear Hjobs. unfold sys_ok. cbn [sys_step sys_state sys_tasks].
    split; [|split; [reflexivity|eauto]].
    assert (Hnew : jb ∉ task_job <$> sys_tasks s)
      by (apply Hfreshjob; cbn; left).
    split; [exact Hstore|]. split; [|split].
    + rewrite fmap_app. cbn. apply NoDup_app. split; [exact Hnd|].
      split; [|apply NoDup_singleton].
      intros j Hin ->%list_elem_of_singleton. contradiction.
    + intros j Hj. rewrite fmap_app, elem_of_app. left. now apply Hdom.
    + apply Forall_app. split; [exact Hall|]. apply Forall_singleton.
      split; [|exact I]. cbn.
      destruct (INGEST_STATUS (sys_state s) !! jb) eqn:Hentry; [|reflexivity].
      exfalso. apply Hnew, Hdom. eauto.
  - revert Hjobs. cbn [sys_step].
    destruct (sys_tasks s !! n) as [t|] eqn:Ht;
      [|intros _; split;
        [exact (conj Hstore (conj Hnd (conj Hdom Hall)))
        |split; [reflexivity|eauto]]].
    rewrite Forall_lookup in Hall.
    pose proof (task_step_spec t (sys_state s) (Hall n t Ht))
      as (Hext & Hjob & Htask & Hmono).
    destruct (task_step t (sys_state s)) as [t' st'] eqn:Hstep.
    intros Hjobs. unfold sys_ok. cbn [fst snd sys_state sys_tasks] in *.
    rewrite app_nil_r in Hjobs.
    pose proof Hext as (Hdocs & _ & Hothers & Hkeep).
    split; [|split; [exact Hdocs|]].
    + split; [auto|]. split; [now rewrite Hjobs|]. split.
      * intros j Hj. rewrite Hjobs.
        destruct (decide (j = task_job t)) as [->|Hne].
        -- apply list_elem_of_fmap. exists t. split; [reflexivity|].
           now apply list_elem_of_lookup_2 in Ht.
        -- apply Hdom. now rewrite <- (Hothers j Hne).
      * apply Forall_lookup. intros m t2 Hm.
        destruct (decide (m = n)) as [->|Hmn].
        -- rewrite list_lookup_insert_eq in Hm
             by (now apply lookup_lt_Some in Ht).
           now injection Hm as <-.
        -- rewrite list_lookup_insert_ne in Hm by congruence.
           apply (task_ok_other (task_job t) (sys_state s));
             [exact Hext| |exact (Hall m t2 Hm)].
           intros Heq. apply Hmn.
           eapply (NoDup_lookup _ m n (task_job t2) Hnd);
             rewrite list_lookup_fmap; [now rewrite Hm|now rewrite Ht, Heq].
    + intros j e1 He1. destruct (decide (j = task_job t)) as [->|Hne].
      * now apply Hmono.
      * exists e1. split; [now rewrite (Hothers j Hne)|apply Hrefl].
Qed.

Lemma entry_le_trans (e1 e2 e3 : job) :
  entry_le e1 e2 -> entry_le e2 e3 -> entry_le e1 e3.
Proof.
  intros (Ht1 & Hp1 & Hd1) (Ht2 & Hp2 & Hd2).
  split; [congruence|]. split; [lia|].
  intros Hdone. specialize (Hd1 Hdone). subst e2. auto.
Qed.

Lemma sys_run_ok (events : list event) (s : system) :
  sys_ok s ->
  NoDup (uploaded_jobs events) ->
  (forall j, j ∈ uploaded_jobs events -> j ∉ task_job <$> sys_tasks s) ->
  sys_ok (sys_run events s) /\
  task_job <$> sys_tasks (sys_run events s)
    = (task_job <$> sys_tasks s) ++ uploaded_jobs events /\
  documents (store (sys_state s))
    `prefix_of` documents (store (sys_state (sys_run events s))) /\
  (forall j e1,
     INGEST_STATUS (sys_state s) !! j = Some e1 ->
     exists e2, INGEST_STATUS (sys_state (sys_run events s)) !! j = Some e2 /\
                entry_le e1 e2).
Proof.
  revert s. induction events as [|e events IH]; intros s Hok Hnd Hfresh.
  - cbn. rewrite app_nil_r. split; [exact Hok|]. split; [reflexivity|].
    split; [reflexivity|]. intros j e1 He1. exists e1.
    split; [exact He1|repeat split; auto].
  - change (e :: events) with ([e] ++ events) in Hnd, Hfresh.
    unfold uploaded_jobs in Hnd, Hfresh. rewrite omap_app in Hnd, Hfresh.
    fold (uploaded_jobs [e]) in Hnd, Hfresh.
    fold (uploaded_jobs events) in Hnd, Hfresh.
    apply NoDup_app in Hnd as (Hnd1 & Hdis & Hnd2).
    destruct (sys_step_ok s e Hok) as (Hok1 & Hdocs1 & Hmono1).
    { intros j Hj. apply Hfresh, elem_of_app. now left. }
    pose proof (sys_step_jobs s e Hok) as Hjobs1.
    destruct (IH (sys_step s e) Hok1 Hnd2) as (Hok2 & Hjobs2 & Hdocs2 & Hmono2).
    { intros j Hj. rewrite Hjobs1, elem_of_app. intros [Hin|Hin].
      - apply (Hfresh j); [apply elem_of_app; now right|exact Hin].
      - apply (Hdis j Hin Hj). }
    cbn [sys_run foldl]. fold (sys_run events (sys_step s e)).
    split; [exact Hok2|]. split; [|split].
    + rewrite Hjobs2, Hjobs1, <- app_assoc. f_equal.
      change (e :: events) with ([e] ++ events).
      unfold uploaded_jobs. now rewrite omap_app.
    + etrans; eassumption.
    + intros j e1 He1. destruct (Hmono1 j e1 He1) as (e2 & He2 & Hle1).
      destruct (Hmono2 j e2 He2) as (e3 & He3 & Hle2).
      exists e3. split; [exact He3|]. eapply entry_le_trans; eassumption.
Qed.

Lemma boot_ok (db : doc_store) : store_ok db -> sys_ok (boot db).
Proof.
  intros Hdb. split; [exact Hdb|]. split; [constructor|].
  split; [|constructor]. intros j [e He]. cbn in He.
  now rewrite lookup_empty in He.
Qed.

Lemma sys_ok_entry_bounded (s : system) (j : string) (e : job) :
  sys_ok s -> INGEST_STATUS (sys_state s) !! j = Some e ->
  processed e <= total e.
Proof.
  intros (_ & _ & Hdom & Hall) He.
  assert (Hin : j ∈ task_job <$> sys_tasks s) by (apply Hdom; eauto).
  apply list_elem_of_fmap in Hin as (t & -> & Ht).
  rewrite Forall_forall in Hall. destruct (Hall t Ht) as [Hentry Hphase].
  rewrite He in Hentry. unfold entry_of_phase in Hentry.
  destruct (task_phase t) as [|i| |i err]; [discriminate| | |];
    injection Hentry as ->; cbn; lia.
Qed.

Lemma sys_run_boot (db : doc_store) (events : list event) :
  store_ok db -> NoDup (uploaded_jobs events) ->
  sys_ok (sys_run events (boot db)) /\
  task_job <$> sys_tasks (sys_run events (boot db)) = uploaded_jobs events /\
  documents db `prefix_of` documents (store (sys_state (sys_run events (boot db)))).
Proof.
  intros Hdb Hnd.
  destruct (sys_run_ok events (boot db) (boot_ok db Hdb) Hnd)
    as (Hok & Hjobs & Hdocs & _).
  { intros j _. cbn. apply not_elem_of_nil. }
  split; [exact Hok|]. split; [exact Hjobs|exact Hdocs].
Qed.

(** X15. Batches uploaded one after another and ingested in any
    interleaving, a turn of a task running from one [await] to the next:
    when the store is well formed at the start and the uploads drew
    distinct job identifiers, then after any sequence of uploads and turns
    the store is still well formed and begins with the documents it had,
    the job table holds for every batch exactly the entry its progress
    dictates (none before the first turn of its task, the number of files
    done in between, [done] once all files are in), a task only ever stops
    early on a taken document identifier, and the status endpoint knows no
    job that was not handed out. *)
Theorem concurrent_batches_keep_job_table (db : doc_store)
    (events : list event) :
  store_ok db ->
  NoDup (uploaded_jobs events) ->
  store_ok (store (sys_state (sys_run events (boot db)))) /\
  documents db
    `prefix_of` documents (store (sys_state (sys_run events (boot db)))) /\
  task_job <$> sys_tasks (sys_run events (boot db)) = uploaded_jobs events /\
  Forall (task_ok (sys_state (sys_run events (boot db))))
         (sys_tasks (sys_run events (boot db))) /\
  (forall j, j ∉ uploaded_jobs events ->
     ingest_status (INGEST_STATUS (sys_state (sys_run events (boot db)))) j
     = StatusError "not found").
Proof.
  intros Hdb Hnd.
  destruct (sys_run_boot db events Hdb Hnd)
    as ((Hstore & _ & Hdom & Hall) & Hjobs & Hdocs).
  split; [exact Hstore|]. split; [exact Hdocs|]. split; [exact Hjobs|].
  split; [exact Hall|].
  intros j Hj. unfold ingest_status.
  destruct (INGEST_STATUS (sys_state (sys_run events (boot db))) !! j)
    as [e|] eqn:He; [|reflexivity].
  exfalso. apply Hj. rewrite <- Hjobs. apply Hdom. eauto.
Qed.

(** Two batches taking turns, the second drawing the document identifiers
    of the first. *)
Lemma concurrent_batches_keep_job_table_witness :
  let events := [Upload sample_env "job-a" sample_files;
                 Upload sample_env "job-b" sample_files;
                 Resume 0; Resume 1; Resume 0; Resume 1; Resume 0;
                 Resume 0; Resume 0] in
  store_ok empty_store /\
  NoDup (uploaded_jobs events) /\
  ingest_status (INGEST_STATUS (sys_state (sys_run events (boot empty_store))))
                "job-a"
  = JobStatus {| total := 3; processed := 3; done := true |} /\
  ingest_status (INGEST_STATUS (sys_state (sys_run events (boot empty_store))))
                "job-b"
  = JobStatus {| total := 3; processed := 0; done := false |} /\
  Forall (task_ok (sys_state (sys_run events (boot empty_store))))
         (sys_tasks (sys_run events (boot empty_store))).
Proof.
  intros events.
  assert (Hnd : NoDup (uploaded_jobs events)) by by_evaluation.
  split; [apply store_ok_empty|]. split; [exact Hnd|].
  split; [vm_compute; reflexivity|]. split; [vm_compute; reflexivity|].
  apply (concurrent_batches_keep_job_table empty_store events
           store_ok_empty Hnd).
Defined.

(** X16. The entry of a job only advances: whatever the status endpoint
    answers for a job at some moment, after any further uploads and turns
    of any tasks it answers an entry with the same [total], at least as
    many files [processed], never more than [total], and the same entry
    once it was [done]. *)
Theorem job_status_only_advances (db : doc_store)
    (before after : list event) (j : string) (e1 : job) :
  store_ok db ->
  NoDup (uploaded_jobs (before ++ after)) ->
  ingest_status (INGEST_STATUS (sys_state (sys_run before (boot db)))) j
  = JobStatus e1 ->
  exists e2,
    ingest_status
      (INGEST_STATUS (sys_state (sys_run (before ++ after) (boot db)))) j
    = JobStatus e2 /\
    entry_le e1 e2 /\ processed e2 <= total e2.
Proof.
  intros Hdb Hnd Hstatus.
  unfold uploaded_jobs in Hnd. rewrite omap_app in Hnd.
  fold (uploaded_jobs before) in Hnd. fold (uploaded_jobs after) in Hnd.
  apply NoDup_app in Hnd as (Hnd1 & Hdis & Hnd2).
  destruct (sys_run_boot db before Hdb Hnd1) as (Hok1 & Hjobs1 & _).
  destruct (sys_run_ok after (sys_run before (boot db)) Hok1 Hnd2)
    as (Hok2 & _ & _ & Hmono).
  { intros k Hk. rewrite Hjobs1. intros Hin. exact (Hdis k Hin Hk). }
  unfold sys_run in *. rewrite foldl_app.
  unfold ingest_status in Hstatus.
  destruct (INGEST_STATUS (sys_state (foldl sys_step (boot db) before)) !! j)
    as [e|] eqn:He; [|discriminate].
  injection Hstatus as ->.
  destruct (Hmono j e1 He) as (e2 & He2 & Hle).
  exists e2. unfold ingest_status. rewrite He2.
  split; [reflexivity|]. split; [exact Hle|].
  eapply sys_ok_entry_bounded; [exact Hok2|exact He2].
Qed.

Lemma job_status_only_advances_witness :
  let before := [Upload sample_env "job-a" sample_files;
                 Upload sample_env "job-b" sample_files;
                 Resume 0; Resume 1; Resume 0] in
  let after := [Resume 1; Resume 0; Upload sample_env "job-c" []; Resume 2] in
  store_ok empty_store /\
  NoDup (uploaded_jobs (before ++ after)) /\
  ingest_status
    (INGEST_STATUS (sys_state (sys_run before (boot empty_store)))) "job-a"
  = JobStatus {| total := 3; processed := 1; done := false |} /\
  exists e2,
    ingest_status
      (INGEST_STATUS (sys_state (sys_run (before ++ after) (boot empty_store))))
      "job-a"
    = JobStatus e2 /\
    entry_le {| total := 3; processed := 1; done := false |} e2 /\
    processed e2 <= total e2.
Proof.
  intros before after.
  assert (Hnd : NoDup (uploaded_jobs (before ++ after))) by by_evaluation.
  assert (Hstatus :
    ingest_status
      (INGEST_STATUS (sys_state (sys_run before (boot empty_store)))) "job-a"
    = JobStatus {| total := 3; processed := 1; done := false |})
    by (vm_compute; reflexivity).
  split; [apply store_ok_empty|]. split; [exact Hnd|].
  split; [exact Hstatus|].
  exact (job_status_only_advances empty_store before after "job-a" _
           store_ok_empty Hnd Hstatus).
Defined.

(** ** Comma-separated files *)

Lemma tokenize_separator (a b : string) (sep : ascii) :
  token_char sep = false ->
  tokenize (String.append a (String sep b)) = tokenize a ++ tokenize b.
Proof.
  intros Hsep. unfold tokenize. rewrite lower_append. cbn [Text.lower].
  rewrite (token_char_lower_char sep Hsep).
  now apply findall_runs_separator.
Qed.

Lemma line_boundary_separates (c : ascii) :
  is_line_boundary c = true -> token_char c = false.
Proof.
  destruct c as [[] [] [] [] [] [] [] []]; (reflexivity || discriminate).
Qed.

Lemma append_empty_r (s : string) : String.append s EmptyString = s.
Proof. induction s as [|c s IH]; [reflexivity|]. now rewrite append_String, IH. Qed.

(** Joining the lines of a text again changes the line ends, not the
    tokens. *)
Lemma tokenize_splitlines_from (s cur : string) (after_cr : bool) :
  (after_cr = true -> cur = EmptyString) ->
  tokenize (String.concat NL (splitlines_from after_cr cur s))
  = tokenize (String.append cur s).
Proof.
  revert cur after_cr. induction s as [|c s IH]; intros cur after_cr Hcr.
  - rewrite append_empty_r. cbn [splitlines_from]. now destruct cur.
  - cbn [splitlines_from].
    destruct (after_cr && Ascii.eqb c Text.newline) eqn:Hskip.
    + apply andb_true_iff in Hskip as [-> Hc]. rewrite (Hcr eq_refl).
      apply Ascii.eqb_eq in Hc as ->.
      rewrite (IH EmptyString false) by discriminate.
      rewrite !append_empty. symmetry.
      exact (tokenize_separator EmptyString s Text.newline eq_refl).
    + destruct (is_line_boundary c) eqn:Hb.
      * rewrite (tokenize_separator cur s c (line_boundary_separates c Hb)).
        specialize (IH EmptyString (Ascii.eqb c (ascii_of_N 13)) (fun _ => eq_refl)).
        rewrite append_empty in IH.
        destruct (splitlines_from (Ascii.eqb c (ascii_of_N 13)) EmptyString s)
          as [|l ls] eqn:Hrest.
        -- cbn [String.concat]. rewrite <- IH. cbn.
           now rewrite app_nil_r.
        -- change (String.concat NL (cur :: l :: ls))
             with (String.append cur
                     (String Text.newline (String.concat NL (l :: ls)))).
           rewrite (tokenize_separator _ _ Text.newline eq_refl).
           now rewrite IH.
      * rewrite (IH _ false) by discriminate. now rewrite append_snoc.
Qed.

(** X17. A file named [*.csv] is searchable by the words of the whole file
    unless its header has a [content] column: when the reader finds no
    header, fails, or finds a header without that column, the document
    stored for the file has exactly the tokens of the decoded text, in the
    same order, although the stored text has its line ends rewritten. *)
Theorem csv_without_content_column_keeps_terms (env : ingest_env) (i : nat)
    (file : UploadFile) (text : string) :
  text = default (contents file) (decode_utf8 env (contents file)) ->
  (forall names,
     fieldnames (DictReader env (splitlines text)) = Some names ->
     "content" ∉ names) ->
  tokenize (content (new_document env i file)) = tokenize text /\
  index_rows (new_document env i file)
  = (fun term => (term, uuid4 env i)) <$> set_of (tokenize text).
Proof.
  intros Htext Hheader.
  assert (Htok : tokenize (content (new_document env i file)) = tokenize text).
  { cbn [new_document content]. unfold file_content.
    assert (Hdec : match decode_utf8 env (contents file) with
                   | Some t => t
                   | None => contents file
                   end = text).
    { rewrite Htext. now destruct (decode_utf8 env (contents file)). }
    rewrite Hdec.
    destruct (Text.endswith (Text.lower (filename file)) ".csv");
      [|reflexivity].
    unfold csv_content.
    destruct (fieldnames (DictReader env (splitlines text))) as [names|] eqn:Hf;
      [|reflexivity].
    rewrite bool_decide_eq_false_2 by now apply Hheader.
    unfold splitlines.
    now rewrite (tokenize_splitlines_from text EmptyString false). }
  split; [exact Htok|]. unfold index_rows. now rewrite Htok.
Qed.

Lemma csv_without_content_column_keeps_terms_witness :
  let env := {| decode_utf8 := fun b => Some b;
                DictReader := fun lines =>
                  {| fieldnames := Some ["name"; "skills"]; csv_rows := Some [] |};
                uuid4 := fun i => Text.str_of_N (N.of_nat i);
                time_time := fun i => Z.of_nat i |} in
  let file := {| filename := "Team.CSV";
                 contents := String.append "name,skills"
                               (String (ascii_of_N 13)
                                  (String Text.newline "Ann,Python C++")) |} in
  content (new_document env 0 file) <> contents file /\
  tokenize (content (new_document env 0 file)) = tokenize (contents file).
Proof.
  intros env file. split; [vm_compute; discriminate|].
  apply (csv_without_content_column_keeps_terms env 0 file (contents file)
           eq_refl).
  intros names [= <-]. by_evaluation.
Defined.

(** ** What a reported progress stands for *)

Lemma task_step_stored (t : task) (st : ingest_state) :
  task_ok st t -> stored st t ->
  stored (task_step t st).2 (task_step t st).1.
Proof.
  intros [Hentry Hphase] Hst. unfold stored, files_done, task_step in *.
  destruct t as [env jb files ph].
  cbn [task_job task_files task_env task_phase] in *.
  unfold entry_of_phase in Hentry. cbn [task_phase task_files] in Hentry.
  destruct ph as [|i| |i e].
  - cbv zeta. destruct files as [|f files].
    + rewrite (finish_job_present _ _ _ (start_job_entry _ _ _)).
      cbn. intros d Hd. now apply elem_of_nil in Hd.
    + cbn. intros d Hd. now apply elem_of_nil in Hd.
  - destruct Hphase as [Hi Hfiles].
    destruct (files !! i) as [file|] eqn:Hfile.
    + destruct (ingest_file env i jb file st) as [e|st'] eqn:Hrun;
        cbn [fst snd set_phase task_phase task_env task_files];
        [exact Hst|].
      apply ingest_file_inv in Hrun as (_ & j & _ & ->).
      cbn [store documents]. intros d Hd.
      rewrite (take_S_r _ _ _ (new_documents_lookup env files 0 i file Hfile))
        in Hd.
      apply elem_of_app in Hd as [Hd|Hd]; apply elem_of_app;
        [left; now apply Hst|right; exact Hd].
    + apply lookup_ge_None in Hfile.
      assert (i = length files) as -> by lia.
      rewrite (finish_job_present _ _ _ Hentry).
      cbn [fst snd set_phase task_phase task_env task_files store]. exact Hst.
  - cbn [fst snd task_phase task_env task_files]. exact Hst.
  - cbn [fst snd task_phase task_env task_files]. exact Hst.
Qed.

Lemma stored_later (st st' : ingest_state) (t : task) :
  documents (store st) `prefix_of` documents (store st') ->
  stored st t -> stored st' t.
Proof.
  intros [rest Hrest] Hst d Hd. rewrite Hrest. apply elem_of_app. left.
  now apply Hst.
Qed.

Lemma sys_step_stored (s : system) (e : event) :
  sys_ok s ->
  Forall (stored (sys_state s)) (sys_tasks s) ->
  Forall (stored (sys_state (sys_step s e))) (sys_tasks (sys_step s e)).
Proof.
  intros (_ & _ & _ & Hall) Hst. destruct e as [env jb files|n].
  - cbn [sys_step sys_state sys_tasks]. apply Forall_app. split; [exact Hst|].
    apply Forall_singleton. intros d Hd. cbn in Hd.
    now apply elem_of_nil in Hd.
  - cbn [sys_step]. destruct (sys_tasks s !! n) as [t|] eqn:Ht; [|exact Hst].
    rewrite Forall_lookup in Hall, Hst.
    pose proof (task_step_spec t (sys_state s) (Hall n t Ht))
      as ((Hdocs & _) & _).
    pose proof (task_step_stored t (sys_state s) (Hall n t Ht) (Hst n t Ht))
      as Hnew.
    destruct (task_step t (sys_state s)) as [t' st'].
    cbn [fst snd sys_state sys_tasks] in *.
    apply Forall_lookup. intros m t2 Hm.
    destruct (decide (m = n)) as [->|Hmn].
    + rewrite list_lookup_insert_eq in Hm by (now apply lookup_lt_Some in Ht).
      now injection Hm as <-.
    + rewrite list_lookup_insert_ne in Hm by congruence.
      apply (stored_later (sys_state s)); [exact Hdocs|exact (Hst m t2 Hm)].
Qed.

Lemma sys_run_stored (events : list event) (s : system) :
  sys_ok s ->
  NoDup (uploaded_jobs events) ->
  (forall j, j ∈ uploaded_jobs events -> j ∉ task_job <$> sys_tasks s) ->
  Forall (stored (sys_state s)) (sys_tasks s) ->
  Forall (stored (sys_state (sys_run events s))) (sys_tasks (sys_run events s)).
Proof.
  revert s. induction events as [|e events IH]; intros s Hok Hnd Hfresh Hst;
    [exact Hst|].
  change (e :: events) with ([e] ++ events) in Hnd, Hfresh.
  unfold uploaded_jobs in Hnd, Hfresh. rewrite omap_app in Hnd, Hfresh.
  fold (uploaded_jobs [e]) in Hnd, Hfresh.
  fold (uploaded_jobs events) in Hnd, Hfresh.
  apply NoDup_app in Hnd as (Hnd1 & Hdis & Hnd2).
  destruct (sys_step_ok s e Hok) as (Hok1 & _).
  { intros j Hj. apply Hfresh, elem_of_app. now left. }
  cbn [sys_run foldl]. fold (sys_run events (sys_step s e)).
  apply IH; [exact Hok1|exact Hnd2| |now apply sys_step_stored].
  intros j Hj. rewrite (sys_step_jobs s e Hok), elem_of_app. intros [Hin|Hin].
  - apply (Hfresh j); [apply elem_of_app; now right|exact Hin].
  - apply (Hdis j Hin Hj).
Qed.

(** X18. What the status endpoint reports is in the store, also when
    batches are ingested concurrently: if it answers an entry for the job
    of a batch, then the documents of the first [processed] files of that
    batch are stored, and every token of their text is indexed for them, so
    that a search can find them; with [done] set, [processed] is the number
    of files of the batch. *)
Theorem reported_progress_is_stored (db : doc_store) (events : list event)
    (t : task) (e : job) (d : document) :
  store_ok db ->
  NoDup (uploaded_jobs events) ->
  t ∈ sys_tasks (sys_run events (boot db)) ->
  ingest_status (INGEST_STATUS (sys_state (sys_run events (boot db))))
                (task_job t) = JobStatus e ->
  d ∈ take (processed e) (new_documents (task_env t) 0 (task_files t)) ->
  d ∈ documents (store (sys_state (sys_run events (boot db)))) /\
  (forall term, term ∈ tokenize (content d) ->
     (term, doc_id d) ∈ doc_index (store (sys_state (sys_run events (boot db))))) /\
  (done e = true -> processed e = length (task_files t)).
Proof.
  intros Hdb Hnd Ht Hstatus Hd.
  destruct (sys_run_boot db events Hdb Hnd) as (Hok & _ & _).
  assert (Hst : Forall (stored (sys_state (sys_run events (boot db))))
                       (sys_tasks (sys_run events (boot db)))).
  { apply sys_run_stored; [now apply boot_ok|exact Hnd| |constructor].
    intros j _. cbn. apply not_elem_of_nil. }
  destruct Hok as (Hstore & _ & _ & Hall).
  rewrite Forall_forall in Hall, Hst.
  destruct (Hall t Ht) as [Hentry Hphase]. specialize (Hst t Ht).
  unfold ingest_status in Hstatus. rewrite Hentry in Hstatus.
  unfold stored, files_done in Hst. unfold entry_of_phase in Hstatus.
  assert (Hin : d ∈ documents (store (sys_state (sys_run events (boot db)))) /\
                (done e = true -> processed e = length (task_files t))).
  { destruct (task_phase t) as [|i| |i err]; [discriminate| | |];
      injection Hstatus as <-; cbn [processed done] in *;
      (split; [now apply Hst|]); (reflexivity || discriminate). }
  destruct Hin as [Hin Hdone]. split; [exact Hin|]. split; [|exact Hdone].
  intros term Hterm. apply (store_ok_elem_of _ term (doc_id d) Hstore). eauto.
Qed.

Lemma reported_progress_is_stored_witness :
  let events := [Upload sample_env "job-a" sample_files;
                 Upload repeating_env "job-b" sample_files;
                 Resume 0; Resume 1; Resume 0; Resume 1] in
  let s := sys_run events (boot empty_store) in
  exists t d,
    sys_tasks s !! 0 = Some t /\
    ingest_status (INGEST_STATUS (sys_state s)) (task_job t)
    = JobStatus {| total := 3; processed := 1; done := false |} /\
    content d = "Python Engineer NY" /\
    d ∈ documents (store (sys_state s)) /\
    ("engineer", doc_id d) ∈ doc_index (store (sys_state s)).
Proof.
  intros events s.
  assert (Hnd : NoDup (uploaded_jobs events)) by by_evaluation.
  destruct (sys_tasks s !! 0) as [t|] eqn:Ht; [|vm_compute in Ht; discriminate].
  assert (Hin : t ∈ sys_tasks s) by (now apply list_elem_of_lookup_2 in Ht).
  assert (Ht' : t = {| task_env := sample_env; task_job := "job-a";
                       task_files := sample_files;
                       task_phase := Looping 1 |})
    by (vm_compute in Ht; now injection Ht as <-).
  assert (Hstatus :
    ingest_status (INGEST_STATUS (sys_state s)) (task_job t)
    = JobStatus {| total := 3; processed := 1; done := false |})
    by (rewrite Ht'; vm_compute; reflexivity).
  exists t, (new_document sample_env 0
               {| filename := "a.txt"; contents := "Python Engineer NY" |}).
  assert (Hd : new_document sample_env 0
                 {| filename := "a.txt"; contents := "Python Engineer NY" |}
               ∈ take 1 (new_documents (task_env t) 0 (task_files t)))
    by (rewrite Ht'; cbn; left).
  destruct (reported_progress_is_stored empty_store events t _ _
              store_ok_empty Hnd Hin Hstatus Hd) as (Hdoc & Hidx & _).
  split; [reflexivity|]. split; [exact Hstatus|]. split; [reflexivity|].
  split; [exact Hdoc|]. apply Hidx. by_evaluation.
Defined.
